(** * Session-rating bot: the query normaliser, the translator's repair
      call, the retrying executor and the response shaping of the server.

    The development follows the JavaScript sources:

    - [backend/services/mongoService.js]: [convertDateStrings] and
      [executeQueryWithRetry] (module [MongoService] below);
    - [backend/services/queryGenerator.js]: its own copy of
      [convertDateStrings], [generateQuery] and [fixQuery]
      (module [QueryGenerator]);
    - [backend/server.js]: the [rawResults] field of the [/api/query]
      response (module [Server]).

    [convertDateStrings] rewrites its argument in place, so objects and
    arrays live in an explicit heap and are passed around by reference.
    A second, purely functional reading of the same traversal on trees is
    proved to describe what the in-place code does to a freshly parsed
    structure; the tree reading is only a means of proof. *)

From stdpp Require Import base list strings pretty.
From Stdlib Require Import ZArith Lia Ascii.

Set Warnings "-register-all".
Local Open Scope Z_scope.
Local Open Scope list_scope.

(** ** Values *)

(** A JavaScript number is an IEEE double.  The code under study never
    computes with the numbers inside a query: they are carried along.  A
    finite double is [m * 2 ^ e]. *)
Inductive number :=
| Finite (m e : Z)
| NaN
| Infinity (negative : bool).

(** Values as trees: what [JSON.parse] returns, plus [undefined] and
    native dates.  The time value of a date is [None] for an invalid date
    and otherwise the milliseconds since the epoch.  The properties of an
    object are listed in enumeration order. *)
Inductive value :=
| VUndefined
| VNull
| VBool (b : bool)
| VNum (n : number)
| VStr (s : string)
| VDate (t : option Z)
| VArr (items : list value)
| VObj (props : list (string * value)).

(** Thrown [Error]s are identified by their [message]. *)
Inductive result (A : Type) :=
| Ok (a : A)
| Throw (message : string).
Arguments Ok {A} a.
Arguments Throw {A} message.

(** First property named [k], as [obj[k]] finds it. *)
Fixpoint assoc {A} (k : string) (kvs : list (string * A)) : option A :=
  match kvs with
  | [] => None
  | (k', v) :: rest => if String.eqb k k' then Some v else assoc k rest
  end.

(** ** Dates *)

Module JSDate.

(** *** The pattern of [isoDateRegex] *)

Inductive atom :=
| Digit                (* \d *)
| Lit (c : ascii).     (* a literal character *)

Definition is_digit (c : ascii) : bool :=
  let n := nat_of_ascii c in ((48 <=? n) && (n <=? 57))%nat.

(** The whole string against a sequence of atoms (the pattern is
    anchored by ^ and $). *)
Fixpoint match_atoms (p : list atom) (s : string) : bool :=
  match p, s with
  | [], EmptyString => true
  | Digit :: p', String c s' => is_digit c && match_atoms p' s'
  | Lit a :: p', String c s' => Ascii.eqb a c && match_atoms p' s'
  | _, _ => false
  end.

(** \d{4}-\d{2}-\d{2}T\d{2}:\d{2}:\d{2} *)
Definition date_time_atoms : list atom :=
  [Digit; Digit; Digit; Digit; Lit "-"; Digit; Digit; Lit "-"; Digit; Digit;
   Lit "T"; Digit; Digit; Lit ":"; Digit; Digit; Lit ":"; Digit; Digit].

(** (\.\d{3})? *)
Definition millis_atoms : list atom := [Lit "."; Digit; Digit; Digit].

(** [isoDateRegex.test(s)] for
    /^\d{4}-\d{2}-\d{2}T\d{2}:\d{2}:\d{2}(\.\d{3})?Z$/ *)
Definition isoDateRegex_test (s : string) : bool :=
  match_atoms (date_time_atoms ++ [Lit "Z"]) s
  || match_atoms (date_time_atoms ++ millis_atoms ++ [Lit "Z"]) s.

(** *** Time values (ECMAScript, Date Time String Format) *)

Definition digit_val (c : ascii) : Z := Z.of_nat (nat_of_ascii c) - 48.

Fixpoint digits_from (acc : Z) (s : string) : Z :=
  match s with
  | EmptyString => acc
  | String c s' => digits_from (10 * acc + digit_val c) s'
  end.

(** The decimal number written at [s[i .. i+n)]. *)
Definition field (i n : nat) (s : string) : Z :=
  digits_from 0 (String.substring i n s).

Definition is_leap (y : Z) : bool :=
  ((y mod 4 =? 0) && negb (y mod 100 =? 0)) || (y mod 400 =? 0).

Definition days_in_month (y m : Z) : Z :=
  if m =? 2 then (if is_leap y then 29 else 28)
  else if (m =? 4) || (m =? 6) || (m =? 9) || (m =? 11) then 30
  else 31.

(** Day number of a proleptic Gregorian date, day 0 being 1970-01-01
    ([MakeDay]). *)
Definition days_from_civil (y m d : Z) : Z :=
  let y' := if m <=? 2 then y - 1 else y in
  let era := y' / 400 in
  let yoe := y' - era * 400 in
  let mp := if m <=? 2 then m + 9 else m - 3 in
  let doy := (153 * mp + 2) / 5 + d - 1 in
  let doe := yoe * 365 + yoe / 4 - yoe / 100 + doy in
  era * 146097 + doe - 719468.

Definition msPerDay : Z := 86400000.

(** [MakeDate(MakeDay(..), MakeTime(..))] *)
Definition make_date (y mo d h mi sec ms : Z) : Z :=
  days_from_civil y mo d * msPerDay
  + ((h * 60 + mi) * 60 + sec) * 1000 + ms.

(** The time value of a string that [isoDateRegex] accepts, when every
    field is within its bounds. *)
Definition iso_time_value (s : string) : option Z :=
  let y := field 0 4 s in
  let mo := field 5 2 s in
  let d := field 8 2 s in
  let h := field 11 2 s in
  let mi := field 14 2 s in
  let sec := field 17 2 s in
  let ms := if (String.length s =? 24)%nat then field 20 3 s else 0 in
  if (1 <=? mo) && (mo <=? 12) && (1 <=? d) && (d <=? days_in_month y mo)
     && (h <=? 23) && (mi <=? 59) && (sec <=? 59)
  then Some (make_date y mo d h mi sec ms)
  else None.

(** *** [Date.prototype.toISOString] *)

(** The inverse of [days_from_civil]: year, month, day. *)
Definition civil_from_days (z0 : Z) : Z * Z * Z :=
  let z := z0 + 719468 in
  let era := z / 146097 in
  let doe := z - era * 146097 in
  let yoe := (doe - doe / 1460 + doe / 36524 - doe / 146096) / 365 in
  let doy := doe - (365 * yoe + yoe / 4 - yoe / 100) in
  let mp := (5 * doy + 2) / 153 in
  let d := doy - (153 * mp + 2) / 5 + 1 in
  let m := if mp <? 10 then mp + 3 else mp - 9 in
  let y := yoe + era * 400 + (if m <=? 2 then 1 else 0) in
  (y, m, d).

(** [z] in decimal on at least [n] digits ([z] is not negative). *)
Definition pad (n : nat) (z : Z) : string :=
  let s := pretty z in
  String.concat EmptyString (replicate (n - String.length s) "0"%string) +:+ s.

Definition year_string (y : Z) : string :=
  if (0 <=? y) && (y <=? 9999) then pad 4 y
  else if y <? 0 then "-" +:+ pad 6 (- y)
  else "+" +:+ pad 6 y.

Definition toISOString (t : Z) : string :=
  let day := t / msPerDay in
  let r := t mod msPerDay in
  let '(y, m, d) := civil_from_days day in
  year_string y +:+ "-" +:+ pad 2 m +:+ "-" +:+ pad 2 d +:+ "T"
    +:+ pad 2 (r / 3600000) +:+ ":" +:+ pad 2 (r / 60000 mod 60) +:+ ":"
    +:+ pad 2 (r / 1000 mod 60) +:+ "." +:+ pad 3 (r mod 1000) +:+ "Z".

End JSDate.

(** The host: the parts of the JavaScript runtime that are not written
    out here.  [Date.parse] is implementation-defined outside the Date
    Time String Format; [JSON.parse] maps a text to the tree it denotes
    or raises a [SyntaxError]. *)
Class Runtime := {
  Date_parse_other : string → option Z;
  JSON_parse : string → result value;
}.

(** [new Date(s)]: its time value. *)
Definition Date_parse `{Runtime} (s : string) : option Z :=
  if JSDate.isoDateRegex_test s then
    match JSDate.iso_time_value s with
    | Some t => Some t
    | None => Date_parse_other s
    end
  else Date_parse_other s.

(** ** The heap *)

(** Arrays and plain objects are heap cells, named by their location.  A
    [Date] object is never written to and never compared by identity in
    this code, so it is carried as an immediate value. *)
Inductive val :=
| Undef
| Null
| Bool (b : bool)
| Num (n : number)
| Str (s : string)
| Date (t : option Z)
| Ref (l : nat).

Inductive obj :=
| Arr (items : list val)
| Obj (props : list (string * val)).

Abbreviation heap := (list obj).

(** The values held by a cell, in enumeration order, and the update of the
    [i]-th of them ([obj[key] = v] for the [i]-th enumerated [key]). *)
Definition slots (o : obj) : list val :=
  match o with
  | Arr vs => vs
  | Obj kvs => kvs.*2
  end.

Definition set_slot (i : nat) (v : val) (o : obj) : obj :=
  match o with
  | Arr vs => Arr (<[i := v]> vs)
  | Obj kvs => Obj (alter (λ kv, (kv.1, v)) i kvs)
  end.

(** *** [JSON.parse]: building the parsed tree in the heap *)

(** Every array and object of the tree gets a new cell at the end of the
    heap, children before their parent. *)
Fixpoint alloc (t : value) (h : heap) : val * heap :=
  match t with
  | VUndefined => (Undef, h)
  | VNull => (Null, h)
  | VBool b => (Bool b, h)
  | VNum n => (Num n, h)
  | VStr s => (Str s, h)
  | VDate d => (Date d, h)
  | VArr ts =>
      let '(vs, h') :=
        (fix go (ts : list value) (h : heap) : list val * heap :=
           match ts with
           | [] => ([], h)
           | t :: ts' =>
               let '(v, h1) := alloc t h in
               let '(vs, h2) := go ts' h1 in
               (v :: vs, h2)
           end) ts h in
      (Ref (length h'), h' ++ [Arr vs])
  | VObj kvs =>
      let '(kvs', h') :=
        (fix go (kvs : list (string * value)) (h : heap)
           : list (string * val) * heap :=
           match kvs with
           | [] => ([], h)
           | (k, t) :: kvs' =>
               let '(v, h1) := alloc t h in
               let '(r, h2) := go kvs' h1 in
               ((k, v) :: r, h2)
           end) kvs h in
      (Ref (length h'), h' ++ [Obj kvs'])
  end.

(** *** Reading a structure back as a tree *)

(** [None] when the recursion is deeper than [fuel], or on a dangling
    reference. *)
Fixpoint reify (fuel : nat) (h : heap) (v : val) : option value :=
  match v with
  | Undef => Some VUndefined
  | Null => Some VNull
  | Bool b => Some (VBool b)
  | Num n => Some (VNum n)
  | Str s => Some (VStr s)
  | Date d => Some (VDate d)
  | Ref l =>
      match fuel with
      | O => None
      | S f =>
          match h !! l with
          | Some (Arr vs) => VArr <$> mapM (reify f h) vs
          | Some (Obj kvs) =>
              VObj <$> mapM (λ kv, pair kv.1 <$> reify f h kv.2) kvs
          | None => None
          end
      end
  end.

(** A structure of a heap of [n] cells that is not cyclic is at most [n]
    deep. *)
Definition read (h : heap) (v : val) : option value := reify (length h) h v.

(** *** [JSON.stringify] followed by [JSON.parse], on trees *)

(** What the text written by [JSON.stringify] denotes: a date becomes its
    ISO string ([toJSON]), an invalid date and a number that is not finite
    become [null], [undefined] becomes [null] in an array and is left out
    of an object.  [None]: [JSON.stringify] yields [undefined]. *)
Fixpoint jsonify (t : value) : option value :=
  match t with
  | VUndefined => None
  | VNull => Some VNull
  | VBool b => Some (VBool b)
  | VNum (Finite m e) => Some (VNum (Finite m e))
  | VNum _ => Some VNull
  | VStr s => Some (VStr s)
  | VDate (Some t) => Some (VStr (JSDate.toISOString t))
  | VDate None => Some VNull
  | VArr ts => Some (VArr (map (λ t, default VNull (jsonify t)) ts))
  | VObj kvs =>
      Some (VObj ((fix go (kvs : list (string * value)) :=
                     match kvs with
                     | [] => []
                     | (k, t) :: kvs' =>
                         match jsonify t with
                         | Some j => (k, j) :: go kvs'
                         | None => go kvs'
                         end
                     end) kvs))
  end.

(** ** [convertDateStrings], in place *)

(** The two copies of the function differ in how they ask whether [key] is
    an own property: [obj.hasOwnProperty(key)] in mongoService.js,
    [Object.prototype.hasOwnProperty.call(obj, key)] in queryGenerator.js. *)
Inductive hasOwn_call :=
| OnReceiver
| OnPrototype.

Definition not_a_function : string := "obj.hasOwnProperty is not a function".
Definition stack_exceeded : string := "Maximum call stack size exceeded".

Section Traversal.
Context `{Runtime}.
Variable call : hasOwn_call.

(** The [i]-th enumerated key is an own property of [o]. *)
Definition hasOwnProperty (o : obj) (i : nat) : bool :=
  bool_decide (i < length (slots o))%nat.

(** The test of the [if] on the own property.  Looked up on the
    receiver, [hasOwnProperty] is the own property of that name when
    there is one; no value of a parsed structure is a function, so the call
    raises a [TypeError].  Arrays have no such own property. *)
Definition call_hasOwnProperty (o : obj) (i : nat) : result bool :=
  match call, o with
  | OnReceiver, Obj kvs =>
      match assoc "hasOwnProperty" kvs with
      | Some _ => Throw not_a_function
      | None => Ok (hasOwnProperty o i)
      end
  | _, _ => Ok (hasOwnProperty o i)
  end.

(** [value.$date && typeof value.$date === "string"], with the string. *)
Definition date_wrapper (h : heap) (value : val) : option string :=
  match value with
  | Ref l =>
      match h !! l with
      | Some (Obj kvs) =>
          match assoc "$date" kvs with
          | Some (Str d) => if String.eqb d EmptyString then None else Some d
          | _ => None
          end
      | _ => None
      end
  | _ => None
  end.

(** The body of the loop for the [i]-th key of the cell at [l];
    [rec] is the recursive call. *)
Definition visit (rec : heap → val → result unit * heap)
    (l i : nat) (h : heap) : result unit * heap :=
  match h !! l with
  | None => (Ok (), h)
  | Some o =>
      match call_hasOwnProperty o i with
      | Throw e => (Throw e, h)
      | Ok false => (Ok (), h)
      | Ok true =>
          match slots o !! i with
          | Some (Str s) =>
              if JSDate.isoDateRegex_test s
              then (Ok (), <[l := set_slot i (Date (Date_parse s)) o]> h)
              else (Ok (), h)
          | Some (Ref l') =>
              match date_wrapper h (Ref l') with
              | Some d =>
                  (Ok (), <[l := set_slot i (Date (Date_parse d)) o]> h)
              | None => rec h (Ref l')
              end
          | Some (Date d) => rec h (Date d)
          | _ => (Ok (), h)
          end
      end
  end.

(** [for (const key in obj)] over the keys [i .. i+n) that the cell had
    when the loop started; an object has each key once and the loop
    neither adds nor removes a property, so the [i]-th key names the
    [i]-th slot throughout. *)
Fixpoint for_in (body : nat → heap → result unit * heap)
    (i n : nat) (h : heap) : result unit * heap :=
  match n with
  | O => (Ok (), h)
  | S n' =>
      match body i h with
      | (Ok _, h') => for_in body (S i) n' h'
      | (Throw e, h') => (Throw e, h')
      end
  end.

(** The function body, [fuel] bounding the depth of the recursion (the
    call stack).  Over a primitive or a date the loop finds nothing to
    convert. *)
Fixpoint traverse (fuel : nat) (h : heap) (v : val) : result unit * heap :=
  match v with
  | Ref l =>
      match fuel with
      | O => (Throw stack_exceeded, h)
      | S f =>
          match h !! l with
          | Some o => for_in (visit (traverse f) l) 0 (length (slots o)) h
          | None => (Ok (), h)
          end
      end
  | _ => (Ok (), h)
  end.

(** [convertDateStrings(obj)]: the heap is rewritten and [obj] itself is
    returned. *)
Definition convertDateStrings_with (h : heap) (v : val)
    : result val * heap :=
  match traverse (length h) h v with
  | (Ok _, h') => (Ok v, h')
  | (Throw e, h') => (Throw e, h')
  end.

End Traversal.

(** ** The same traversal, read on trees *)

(** For a structure that shares nothing (a freshly parsed one), the heap
    after [convertDateStrings] holds the tree computed here; this is
    [traverse_Rep] below. *)

Definition to_unit {A} (r : result A) : result unit :=
  match r with
  | Ok _ => Ok ()
  | Throw e => Throw e
  end.

Section TreeReading.
Context `{Runtime}.
Variable call : hasOwn_call.

Definition tree_wrapper (t : value) : option string :=
  match t with
  | VObj kvs =>
      match assoc "$date" kvs with
      | Some (VStr d) => if String.eqb d EmptyString then None else Some d
      | _ => None
      end
  | _ => None
  end.

(** What the loop body leaves at a key that held [c]. *)
Definition visit_tree (rec : value → result value) (c : value)
    : result value :=
  match c with
  | VStr s =>
      if JSDate.isoDateRegex_test s then Ok (VDate (Date_parse s))
      else Ok c
  | VArr _ | VObj _ =>
      match tree_wrapper c with
      | Some d => Ok (VDate (Date_parse d))
      | None => rec c
      end
  | VDate _ => rec c
  | _ => Ok c
  end.

Definition visit_list (f : value → result value)
    : list value → result (list value) :=
  fix go cs :=
    match cs with
    | [] => Ok []
    | c :: cs' =>
        match f c with
        | Throw e => Throw e
        | Ok c' =>
            match go cs' with
            | Throw e => Throw e
            | Ok r => Ok (c' :: r)
            end
        end
    end.

(** The call on the receiver raises. *)
Definition raises (kvs : list (string * value)) : bool :=
  match call with
  | OnReceiver => bool_decide (is_Some (assoc "hasOwnProperty" kvs))
  | OnPrototype => false
  end.

Fixpoint normalize (t : value) : result value :=
  match t with
  | VArr cs =>
      match visit_list (visit_tree normalize) cs with
      | Throw e => Throw e
      | Ok cs' => Ok (VArr cs')
      end
  | VObj kvs =>
      if raises kvs then Throw not_a_function
      else
        match
          (fix go (kvs : list (string * value)) :=
             match kvs with
             | [] => Ok []
             | (k, c) :: kvs' =>
                 match visit_tree normalize c with
                 | Throw e => Throw e
                 | Ok c' =>
                     match go kvs' with
                     | Throw e => Throw e
                     | Ok r => Ok ((k, c') :: r)
                     end
                 end
             end) kvs
        with
        | Throw e => Throw e
        | Ok kvs' => Ok (VObj kvs')
        end
  | _ => Ok t
  end.

End TreeReading.

(** ** Trees held by a heap *)

Inductive kind :=
| KArr
| KObj (keys : list string).

Definition okind (o : obj) : kind :=
  match o with
  | Arr _ => KArr
  | Obj kvs => KObj kvs.*1
  end.

Definition tkind (t : value) : option kind :=
  match t with
  | VArr _ => Some KArr
  | VObj kvs => Some (KObj kvs.*1)
  | _ => None
  end.

Definition kids (t : value) : list value :=
  match t with
  | VArr cs => cs
  | VObj kvs => kvs.*2
  | _ => []
  end.

Definition node (k : kind) (cs : list value) : value :=
  match k with
  | KArr => VArr cs
  | KObj keys => VObj (zip keys cs)
  end.

(** Immediate values. *)
Definition imm (v : val) : option value :=
  match v with
  | Undef => Some VUndefined
  | Null => Some VNull
  | Bool b => Some (VBool b)
  | Num n => Some (VNum n)
  | Str s => Some (VStr s)
  | Date d => Some (VDate d)
  | Ref _ => None
  end.

(** [Rep h lo hi v t]: in [h], the value [v] is the root of a structure
    that is the tree [t], laid out in the cells [lo .. hi), every child in
    a range of its own below its parent.  Such a structure shares nothing
    and has no cycle. *)
Inductive Rep (h : heap) : nat → nat → val → value → Prop :=
| Rep_imm lo hi v t :
    (lo ≤ hi)%nat → imm v = Some t → Rep h lo hi v t
| Rep_node lo hi l o t :
    (l < hi)%nat → h !! l = Some o → tkind t = Some (okind o) →
    RepL h lo l (slots o) (kids t) →
    Rep h lo hi (Ref l) t
with RepL (h : heap) : nat → nat → list val → list value → Prop :=
| RepL_nil lo hi :
    (lo ≤ hi)%nat → RepL h lo hi [] []
| RepL_cons lo mid hi v t vs ts :
    Rep h lo mid v t → RepL h mid hi vs ts →
    RepL h lo hi (v :: vs) (t :: ts).

Scheme Rep_mut := Induction for Rep Sort Prop
  with RepL_mut := Induction for RepL Sort Prop.
Combined Scheme Rep_RepL_ind from Rep_mut, RepL_mut.

(** Children allocated one after the other, as [alloc] does for the
    elements of an array and for the values of an object. *)
Fixpoint alloc_list (ts : list value) (h : heap) : list val * heap :=
  match ts with
  | [] => ([], h)
  | t :: ts' =>
      let '(v, h1) := alloc t h in
      let '(vs, h2) := alloc_list ts' h1 in
      (v :: vs, h2)
  end.

(** The subtree at a path of positions (the [i]-th element of an array,
    the [i]-th property of an object). *)
Fixpoint subtree (p : list nat) (t : value) : option value :=
  match p with
  | [] => Some t
  | i :: p' =>
      match kids t !! i with
      | Some c => subtree p' c
      | None => None
      end
  end.

(** The traversal of [t] gets to the key at the end of [p]: the path is
    not empty and no value on it, the last one apart, is a date wrapper
    (a wrapper is replaced as a whole, its content is not visited). *)
Fixpoint reached (p : list nat) (t : value) : bool :=
  match p with
  | [] => false
  | i :: p' =>
      match kids t !! i, p' with
      | None, _ => false
      | Some _, [] => true
      | Some c, _ :: _ =>
          match tree_wrapper c with
          | Some _ => false
          | None => reached p' c
          end
      end
  end.

(** ** Strings *)

Module JSString.

Definition nl : string := String (ascii_of_nat 10) EmptyString.
Definition dquote : string := String (ascii_of_nat 34) EmptyString.

Fixpoint drop (n : nat) (s : string) : string :=
  match n, s with
  | O, _ => s
  | S n', String _ s' => drop n' s'
  | S _, EmptyString => EmptyString
  end.

(** [s.includes(p)] *)
Fixpoint includes (p s : string) : bool :=
  String.prefix p s
  || match s with
     | EmptyString => false
     | String _ s' => includes p s'
     end.

(** [s.replace(re, empty)] for a pattern without the g flag: the leftmost
    match is removed.  [at_start s] is what follows a match of the pattern
    at the start of [s]. *)
Fixpoint remove_first (at_start : string → option string) (s : string)
    : string :=
  match at_start s with
  | Some rest => rest
  | None =>
      match s with
      | EmptyString => EmptyString
      | String c s' => String c (remove_first at_start s')
      end
  end.

(** The pattern [lit] followed by an optional newline. *)
Definition lit_nl (lit s : string) : option string :=
  if String.prefix lit s then
    let r := drop (String.length lit) s in
    Some (if String.prefix nl r then drop 1 r else r)
  else None.

(** The pattern: an optional newline followed by [lit]. *)
Definition nl_lit (lit s : string) : option string :=
  if String.prefix (nl +:+ lit) s then Some (drop (S (String.length lit)) s)
  else if String.prefix lit s then Some (drop (String.length lit) s)
  else None.

End JSString.

(** ** The collaborators and the world *)

(** What is sent to the reasoning service; the failed query is the tree
    that [JSON.stringify(failedQuery)] writes ([None]: [undefined]). *)
Inductive prompt :=
| GeneratePrompt (userQuery : string)
| FixPrompt (errorMessage originalQuery : string) (failedQuery : option value).

Inductive event :=
| Create (p : prompt)
    (* this.groq.chat.completions.create(..) *)
| Aggregate (pipeline : option value)
    (* this.collection.aggregate(pipeline).toArray() *)
| FixQuery (originalQuery errorMessage : string).
    (* a call of queryGenerator.fixQuery *)

(** The reasoning service and the data store answer as they please; their
    answer may depend on everything that happened before.  [create] gives
    [completion.choices[0]?.message?.content?.trim()] ([None]:
    [undefined]) or raises; [aggregate] gives the documents or raises. *)
Class Collaborators := {
  create : list event → prompt → result (option string);
  aggregate : list event → option value → result (list value);
}.

Record world := World {
  cells : list obj;
  trace : list event;
}.

Definition set_cells (h : heap) (w : world) : world :=
  {| cells := h; trace := trace w |}.

Definition log (e : event) (w : world) : world :=
  {| cells := cells w; trace := trace w ++ [e] |}.

Definition is_aggregate (e : event) : bool :=
  match e with
  | Aggregate _ => true
  | _ => false
  end.

Definition is_fixQuery (e : event) : bool :=
  match e with
  | FixQuery _ _ => true
  | _ => false
  end.

(** Store attempts and repair calls of a trace. *)
Definition store_attempts (tr : list event) : nat :=
  length (filter (λ e, is_aggregate e = true) tr).

Definition repair_calls (tr : list event) : nat :=
  length (filter (λ e, is_fixQuery e = true) tr).

Definition circular : string := "Converting circular structure to JSON".

(** [JSON.stringify(v)], as the tree its text denotes. *)
Definition JSON_stringify (h : heap) (v : val) : result (option value) :=
  match read h v with
  | None => Throw circular
  | Some t => Ok (jsonify t)
  end.

(** [Array.isArray(v)] *)
Definition isArray (h : heap) (v : val) : bool :=
  match v with
  | Ref l =>
      match h !! l with
      | Some (Arr _) => true
      | _ => false
      end
  | _ => false
  end.

(** ** queryGenerator.js *)

Module QueryGenerator.
Section WithHost.
Context `{Runtime} `{Collaborators}.

Definition convertDateStrings : heap → val → result val * heap :=
  convertDateStrings_with OnPrototype.

Definition no_response : string := "No response from Groq API".

(** The two [if]s on the code fences. *)
Definition strip_fences (s : string) : string :=
  if JSString.includes "```json" s then
    JSString.remove_first (JSString.nl_lit "```")
      (JSString.remove_first (JSString.lit_nl "```json") s)
  else if JSString.includes "```" s then
    JSString.remove_first (JSString.nl_lit "```")
      (JSString.remove_first (JSString.lit_nl "```") s)
  else s.

(** The [try] block of [generateQuery]. *)
Definition generateQuery_try (userQuery : string) (w : world)
    : result val * world :=
  let p := GeneratePrompt userQuery in
  let w1 := log (Create p) w in
  match create (trace w) p with
  | Throw e => (Throw e, w1)
  | Ok None => (Throw no_response, w1)
  | Ok (Some cleaned) =>
      if String.eqb cleaned EmptyString then (Throw no_response, w1)
      else
        match JSON_parse (strip_fences cleaned) with
        | Throw e => (Throw e, w1)
        | Ok t =>
            let '(parsed, h1) := alloc t (cells w1) in
            if negb (isArray h1 parsed)
            then (Throw "Query must be an array", set_cells h1 w1)
            else
              match convertDateStrings h1 parsed with
              | (Ok processedQuery, h2) => (Ok processedQuery, set_cells h2 w1)
              | (Throw e, h2) => (Throw e, set_cells h2 w1)
              end
        end
  end.

Definition generateQuery (isInitialized : bool) (userQuery : string)
    (w : world) : result val * world :=
  if negb isInitialized then (Throw "Query Generator not initialized", w)
  else
    match generateQuery_try userQuery w with
    | (Throw e, w') =>
        (Throw ("Failed to generate MongoDB query: " +:+ e), w')
    | r => r
    end.

(** The [try] block of [fixQuery]. *)
Definition fixQuery_try (originalQuery errorMessage : string)
    (failedQuery : val) (w : world) : result val * world :=
  match JSON_stringify (cells w) failedQuery with
  | Throw e => (Throw e, w)
  | Ok failed =>
      let p := FixPrompt errorMessage originalQuery failed in
      let w1 := log (Create p) w in
      match create (trace w) p with
      | Throw e => (Throw e, w1)
      | Ok None => (Throw no_response, w1)
      | Ok (Some fixed) =>
          if String.eqb fixed EmptyString then (Throw no_response, w1)
          else
            match JSON_parse (strip_fences fixed) with
            | Throw e => (Throw e, w1)
            | Ok t =>
                let '(parsed, h1) := alloc t (cells w1) in
                match convertDateStrings h1 parsed with
                | (Ok processed, h2) => (Ok processed, set_cells h2 w1)
                | (Throw e, h2) => (Throw e, set_cells h2 w1)
                end
            end
      end
  end.

Definition fixQuery (originalQuery errorMessage : string)
    (failedQuery : val) (w : world) : result val * world :=
  match
    fixQuery_try originalQuery errorMessage failedQuery
      (log (FixQuery originalQuery errorMessage) w)
  with
  | (Throw e, w') => (Throw ("Failed to fix query: " +:+ e), w')
  | r => r
  end.

End WithHost.
End QueryGenerator.

(** ** mongoService.js *)

Module MongoService.
Section WithHost.
Context `{Runtime} `{Collaborators}.

Definition convertDateStrings : heap → val → result val * heap :=
  convertDateStrings_with OnReceiver.

Definition undefined_not_json : string :=
  JSString.dquote +:+ "undefined" +:+ JSString.dquote +:+ " is not valid JSON".

(** [JSON.parse(JSON.stringify(v))]: the copy is made of new cells. *)
Definition deep_copy (h : heap) (v : val) : result val * heap :=
  match JSON_stringify h v with
  | Throw e => (Throw e, h)
  | Ok None => (Throw undefined_not_json, h)
  | Ok (Some j) =>
      let '(copy, h') := alloc j h in
      (Ok copy, h')
  end.

(** The [try] block of the loop body: one attempt. *)
Definition attempt (currentQuery : val) (w : world)
    : result (list value) * world :=
  match deep_copy (cells w) currentQuery with
  | (Throw e, h1) => (Throw e, set_cells h1 w)
  | (Ok copy, h1) =>
      match convertDateStrings h1 copy with
      | (Throw e, h2) => (Throw e, set_cells h2 w)
      | (Ok processedQuery, h2) =>
          let pipeline := read h2 processedQuery in
          (aggregate (trace w) pipeline,
           log (Aggregate pipeline) (set_cells h2 w))
      end
  end.

(** The [for] loop, [n] iterations before [attempt < maxRetries] fails.
    [Ok None]: the loop is left without a [return], the function returns
    [undefined]. *)
Fixpoint retry_loop (n : nat) (maxRetries attempt_no : Z)
    (originalQuery : string) (currentQuery : val) (w : world)
    : result (option (list value)) * world :=
  match n with
  | O => (Ok None, w)
  | S n' =>
      match attempt currentQuery w with
      | (Ok results, w1) => (Ok (Some results), w1)
      | (Throw message, w1) =>
          if attempt_no =? maxRetries - 1 then
            (Throw ("Database query failed after " +:+ pretty maxRetries
                    +:+ " attempts: " +:+ message), w1)
          else
            match
              QueryGenerator.fixQuery originalQuery message currentQuery w1
            with
            | (Ok fixed, w2) =>
                retry_loop n' maxRetries (attempt_no + 1) originalQuery
                  fixed w2
            | (Throw fixMessage, w2) =>
                (Throw ("Query could not be fixed: " +:+ fixMessage), w2)
            end
      end
  end.

(** [maxRetries] is 2 when the caller leaves it out. *)
Definition executeQueryWithRetry (mongoQuery : val) (originalQuery : string)
    (maxRetries : option Z) (w : world)
    : result (option (list value)) * world :=
  let maxRetries := default 2 maxRetries in
  retry_loop (Z.to_nat maxRetries) maxRetries 0 originalQuery mongoQuery w.

End WithHost.
End MongoService.

(** ** server.js *)

Module Server.

(** The [rawResults] field of the response of [/api/query]. *)
Definition rawResults (results : list value) : list value :=
  if (length results <=? 200)%nat then results else take 50 results.

End Server.

(** ** Statements used by the proofs *)

(** The call [obj.hasOwnProperty(key)] finds an own property in its way:
    it depends on the keys of the object only. *)
Definition clash (call : hasOwn_call) (k : kind) : bool :=
  match call, k with
  | OnReceiver, KObj keys => bool_decide ("hasOwnProperty"%string ∈ keys)
  | _, _ => false
  end.

(** The in-place traversal of a structure that is the tree [t] computes
    [normalize t], touches the cells of the structure only, and writes
    nothing when [t] is already normalised. *)
Definition traverse_spec `{Runtime} (call : hasOwn_call) (t : value) : Prop :=
  ∀ fuel h lo hi v, Rep h lo hi v t → (hi - lo ≤ fuel)%nat →
  ∃ h', traverse call fuel h v = (to_unit (normalize call t), h')
     ∧ length h' = length h
     ∧ (∀ j, (j < lo ∨ hi ≤ j)%nat → h' !! j = h !! j)
     ∧ (∀ t', normalize call t = Ok t' →
          Rep h' lo hi v t' ∧ (t' = t → h' = h)).

(** A parsed tree is laid out in new cells at the end of the heap. *)
Definition alloc_spec (t : value) : Prop :=
  ∀ h v h', alloc t h = (v, h') →
  ∃ ext, h' = h ++ ext ∧ Rep h' (length h) (length h') v t.


(** ** Examples and stubs *)

Definition S14 : string := "2025-03-14T00:00:00.000Z".

(** March 14, 2025, midnight UTC. *)
Definition march_14_2025 : Z := JSDate.make_date 2025 3 14 0 0 0 0.

(** [[{"$match": {"sessionDate": {"$gte": "2025-03-14T00:00:00.000Z"}}}]] *)
Definition sessions_in_march : value :=
  VArr [VObj [("$match"%string,
               VObj [("sessionDate"%string,
                      VObj [("$gte"%string, VStr S14)])])]].

(** [[{"$match": {"hasOwnProperty": 1}}]]: sessions whose field
    [hasOwnProperty] is 1. *)
Definition shadowing_query : value :=
  VArr [VObj [("$match"%string,
               VObj [("hasOwnProperty"%string, VNum (Finite 1 0))])]].

(** [[{"$date": "tomorrow", "tz": null}]] *)
Definition labelled_wrapper : value :=
  VArr [VObj [("$date"%string, VStr "tomorrow"); ("tz"%string, VNull)]].

(** A [JSON.parse] that knows two texts. *)
Definition stub_parse (s : string) : result value :=
  if String.eqb s "[]" then Ok (VArr [])
  else if String.eqb s "{}" then Ok (VObj [])
  else Throw "Unexpected end of JSON input".

Definition stub_runtime : Runtime :=
  {| Date_parse_other := λ _, None; JSON_parse := stub_parse |}.

(** A reasoning service that always answers [answer] and a store that
    always fails. *)
Definition stub_collaborators (answer : string) : Collaborators :=
  {| create := λ _ _, Ok (Some answer);
     aggregate := λ _ _, Throw "store is down" |}.

Definition empty_world : world := {| cells := []; trace := [] |}.

(** A world that holds the query [[{"day": <March 14, 2025>}]] at [Ref 1]. *)
Definition stored_query : world :=
  {| cells := [Obj [("day"%string, Date (Some march_14_2025))]; Arr [Ref 0]];
     trace := [] |}.

(** * Proofs *)

(** ** The pattern and the dates on examples *)

Example isoDateRegex_examples :
  JSDate.isoDateRegex_test S14 = true
  ∧ JSDate.isoDateRegex_test "2025-03-14T00:00:00Z" = true
  ∧ JSDate.isoDateRegex_test "2025-03-14T00:00:00.00Z" = false
  ∧ JSDate.isoDateRegex_test "2025-03-14" = false
  ∧ JSDate.isoDateRegex_test "2025-03-14T00:00:00+01:00" = false.
Proof. vm_compute. done. Qed.

Example march_14_2025_ms : march_14_2025 = 1741910400000.
Proof. reflexivity. Qed.

Example toISOString_examples :
  JSDate.toISOString march_14_2025 = S14
  ∧ JSDate.toISOString (-1) = "1969-12-31T23:59:59.999Z"%string
  ∧ JSDate.toISOString 253402300800000 = "+010000-01-01T00:00:00.000Z"%string.
Proof. vm_compute. done. Qed.

(** A date of the caller's query is a string again in the copy, which is
    why every attempt normalises its copy. *)
Example jsonify_date :
  jsonify (VArr [VObj [("day"%string, VDate (Some march_14_2025))]])
  = Some (VArr [VObj [("day"%string, VStr S14)]]).
Proof. vm_compute. done. Qed.

(** ** Trees *)

(** Induction on trees, with the hypothesis for every child. *)
Lemma value_children_ind (P : value → Prop) :
  (∀ t, tkind t = None → P t) →
  (∀ t k, tkind t = Some k → Forall P (kids t) → P t) →
  ∀ t, P t.
Proof.
  intros Hleaf Hnode. fix IHt 1. intros t.
  destruct t as [| | | | | |cs|kvs]; try (apply Hleaf; reflexivity).
  - apply (Hnode (VArr cs) KArr); [reflexivity|]. simpl.
    induction cs as [|c cs IH]; constructor; [apply IHt|apply IH].
  - apply (Hnode (VObj kvs) (KObj kvs.*1)); [reflexivity|]. simpl.
    induction kvs as [|[k c] kvs IH]; constructor; [apply IHt|apply IH].
Qed.


Section Facts.
Context `{Runtime}.
Variable call : hasOwn_call.
Local Open Scope nat_scope.

Lemma assoc_is_Some {A} (k : string) (kvs : list (string * A)) :
  is_Some (assoc k kvs) ↔ k ∈ kvs.*1.
Proof.
  induction kvs as [|[k' v] kvs IH]; simpl.
  - split; [intros [? [=]]|intros ?%elem_of_nil; done].
  - destruct (String.eqb_spec k k') as [->|Hne].
    + split; [intros _; left|eauto].
    + rewrite IH. split; [by right|].
      intros [?|?]%elem_of_cons; [done|done].
Qed.

Lemma call_hasOwnProperty_clash o i :
  call_hasOwnProperty call o i =
    if clash call (okind o) then Throw not_a_function
    else Ok (hasOwnProperty o i).
Proof.
  unfold call_hasOwnProperty, clash.
  destruct call, o as [vs|kvs]; simpl; try done.
  case_bool_decide as Hin.
  - apply assoc_is_Some in Hin as [? ->]. done.
  - destruct (assoc _ kvs) eqn:E; [|done].
    exfalso. apply Hin, assoc_is_Some. eauto.
Qed.

Lemma raises_clash kvs : raises call kvs = clash call (KObj kvs.*1).
Proof.
  unfold raises, clash. destruct call; [|done].
  apply bool_decide_ext, assoc_is_Some.
Qed.

Lemma normalize_node t k :
  tkind t = Some k →
  normalize call t =
    if clash call k then Throw not_a_function
    else match visit_list (visit_tree (normalize call)) (kids t) with
         | Throw e => Throw e
         | Ok cs' => Ok (node k cs')
         end.
Proof.
  destruct t as [| | | | | |cs|kvs]; try done; intros [= <-].
  - simpl. unfold clash. by destruct call, (visit_list _ _).
  - simpl. rewrite raises_clash. destruct (clash call _); [done|].
    set (go := fix go (kvs : list (string * value)) :=
                 match kvs with [] => Ok [] | (k, c) :: kvs' => _ end).
    assert (Hgo : go kvs =
              match visit_list (visit_tree (normalize call)) kvs.*2 with
              | Throw e => Throw e
              | Ok cs' => Ok (zip kvs.*1 cs')
              end).
    { induction kvs as [|[k c] kvs IH]; [done|]. simpl.
      destruct (visit_tree _ c); [|done]. rewrite IH.
      by destruct (visit_list _ _). }
    rewrite Hgo. by destruct (visit_list _ _).
Qed.

Lemma normalize_leaf t : tkind t = None → normalize call t = Ok t.
Proof. by destruct t. Qed.

End Facts.

Section RepFacts.
Local Open Scope nat_scope.

Lemma Rep_RepL_le h :
  (∀ lo hi v t, Rep h lo hi v t → lo ≤ hi) ∧
  (∀ lo hi vs ts, RepL h lo hi vs ts → lo ≤ hi).
Proof. apply Rep_RepL_ind; intros; lia. Qed.

Lemma Rep_le h lo hi v t : Rep h lo hi v t → lo ≤ hi.
Proof. apply Rep_RepL_le. Qed.

Lemma RepL_le h lo hi vs ts : RepL h lo hi vs ts → lo ≤ hi.
Proof. apply Rep_RepL_le. Qed.

Lemma RepL_length h lo hi vs ts : RepL h lo hi vs ts → length vs = length ts.
Proof. induction 1; simpl; congruence. Qed.

(** A structure depends only on the cells of its range. *)
Lemma Rep_RepL_frame h h' :
  (∀ lo hi v t, Rep h lo hi v t →
     (∀ j, lo ≤ j < hi → h' !! j = h !! j) → Rep h' lo hi v t) ∧
  (∀ lo hi vs ts, RepL h lo hi vs ts →
     (∀ j, lo ≤ j < hi → h' !! j = h !! j) → RepL h' lo hi vs ts).
Proof.
  apply Rep_RepL_ind.
  - intros. by apply Rep_imm.
  - intros lo hi l o t Hl Hо Hk HL IH Hag.
    pose proof (RepL_le _ _ _ _ _ HL).
    eapply Rep_node; [done| |done|].
    + rewrite Hag; [done|lia].
    + apply IH. intros j ?. apply Hag. lia.
  - intros. by apply RepL_nil.
  - intros lo mid hi v t vs ts Hv IHv Hvs IHvs Hag.
    pose proof (Rep_le _ _ _ _ _ Hv). pose proof (RepL_le _ _ _ _ _ Hvs).
    eapply RepL_cons; [apply IHv|apply IHvs]; intros j ?; apply Hag; lia.
Qed.

Lemma Rep_frame h h' lo hi v t :
  Rep h lo hi v t → (∀ j, lo ≤ j < hi → h' !! j = h !! j) →
  Rep h' lo hi v t.
Proof. apply Rep_RepL_frame. Qed.

Lemma RepL_frame h h' lo hi vs ts :
  RepL h lo hi vs ts → (∀ j, lo ≤ j < hi → h' !! j = h !! j) →
  RepL h' lo hi vs ts.
Proof. apply Rep_RepL_frame. Qed.

(** The range may be taken larger. *)
Lemma Rep_widen h lo hi lo' hi' v t :
  Rep h lo hi v t → lo' ≤ lo → hi ≤ hi' → Rep h lo' hi' v t.
Proof.
  intros HR. revert lo' hi'.
  induction HR using Rep_mut with
    (P0 := λ lo hi vs ts _,
             ∀ lo' hi', lo' ≤ lo → hi ≤ hi' → RepL h lo' hi' vs ts);
    intros lo' hi' ??.
  - apply Rep_imm; [lia|done].
  - eapply Rep_node; [lia|done|done|]. apply IHHR; lia.
  - apply RepL_nil. lia.
  - eapply RepL_cons;
      [apply IHHR; [done|reflexivity]|apply IHHR0; [reflexivity|done]].
Qed.

Lemma RepL_widen h lo hi lo' hi' vs ts :
  RepL h lo hi vs ts → lo' ≤ lo → hi ≤ hi' → RepL h lo' hi' vs ts.
Proof.
  induction 1 as [|lo mid hi v t vs ts Hv Hvs IH] in lo', hi' |- *; intros ??.
  - apply RepL_nil. lia.
  - eapply RepL_cons;
      [eapply Rep_widen; [done|done|reflexivity]|apply IH; [reflexivity|done]].
Qed.

(** Leaves. *)
Lemma Rep_leaf h lo hi v t :
  Rep h lo hi v t → tkind t = None → imm v = Some t.
Proof. destruct 1 as [|lo hi l o t Hl Ho Hk HL]; [done|]. by rewrite Hk. Qed.

Lemma Rep_imm_inv h lo hi v t t' :
  Rep h lo hi v t → imm v = Some t' → t = t'.
Proof. destruct 1; [congruence|done]. Qed.

Lemma imm_tkind v t : imm v = Some t → tkind t = None.
Proof. destruct v; intros [= <-]; done. Qed.

(** The wrapper test reads the same on both sides. *)
Lemma RepL_assoc h k lo hi
    (kvs : list (string * val)) (tkvs : list (string * value)) :
  kvs.*1 = tkvs.*1 → RepL h lo hi kvs.*2 tkvs.*2 →
  match assoc k kvs, assoc k tkvs with
  | Some v, Some t => ∃ lo' hi', Rep h lo' hi' v t
  | None, None => True
  | _, _ => False
  end.
Proof.
  revert lo tkvs.
  induction kvs as [|[k1 v] kvs IH]; intros lo [|[k2 t] tkvs]; try done.
  simpl. intros [= -> Hk] HL. inversion HL; subst.
  destruct (String.eqb k k2); [eauto|]. eapply IH; done.
Qed.

Lemma date_wrapper_tree h lo hi v t :
  Rep h lo hi v t → date_wrapper h v = tree_wrapper t.
Proof.
  destruct 1 as [lo hi v t _ Hi|lo hi l o t _ Hl Hk HL].
  - destruct v; simplify_eq/=; done.
  - simpl. rewrite Hl.
    destruct o as [vs|kvs], t as [| | | | | |cs|tkvs]; try done.
    injection Hk as Hk.
    pose proof (RepL_assoc h "$date" _ _ _ _ (eq_sym Hk) HL) as Ha. simpl.
    destruct (assoc _ kvs) as [v|], (assoc _ tkvs) as [t|]; try done.
    + destruct Ha as (lo' & hi' & HR).
      destruct HR as [???? _ Hi|]; [|simpl in *; by destruct t].
      destruct v; simplify_eq/=; done.
Qed.

(** Cells and their slots. *)
Lemma okind_set_slot i v o : okind (set_slot i v o) = okind o.
Proof.
  destruct o as [vs|kvs]; simpl; [done|]. f_equal.
  revert i. induction kvs as [|kv kvs IH]; intros [|i]; simpl; try done.
  f_equal. apply IH.
Qed.

Lemma slots_set_slot i v o : slots (set_slot i v o) = <[i := v]> (slots o).
Proof.
  destruct o as [vs|kvs]; simpl; [done|].
  revert i. induction kvs as [|kv kvs IH]; intros [|i]; simpl; try done.
  f_equal. apply IH.
Qed.

Lemma insert_middle {A} (xs ys : list A) x y :
  <[length xs := y]> (xs ++ x :: ys) = xs ++ y :: ys.
Proof. induction xs; simpl; [done|]. by f_equal. Qed.

Lemma okind_length o :
  match okind o with
  | KArr => True
  | KObj keys => length keys = length (slots o)
  end.
Proof. destruct o; simpl; [done|]. by rewrite !length_fmap. Qed.

Lemma tkind_node k cs :
  match k with KArr => True | KObj keys => length keys = length cs end →
  tkind (node k cs) = Some k ∧ kids (node k cs) = cs.
Proof.
  destruct k as [|keys]; simpl; [done|]. intros Hlen.
  rewrite fst_zip, snd_zip by lia. done.
Qed.

Lemma node_kids t k : tkind t = Some k → node k (kids t) = t.
Proof.
  destruct t; try done; intros [= <-]; simpl; [done|].
  by rewrite zip_fst_snd.
Qed.

End RepFacts.

Section Refinement.
Context `{Runtime}.
Variable call : hasOwn_call.
Local Open Scope nat_scope.

Lemma traverse_imm fuel h v t :
  imm v = Some t → traverse call fuel h v = (Ok (), h).
Proof. destruct v, fuel; done. Qed.

Lemma visit_spec f l i o h mid m1 v c :
  traverse_spec call c →
  h !! l = Some o → clash call (okind o) = false →
  slots o !! i = Some v →
  Rep h mid m1 v c → m1 ≤ l → m1 - mid ≤ f →
  ∃ h1, visit call (traverse call f) l i h
          = (to_unit (visit_tree (normalize call) c), h1)
     ∧ length h1 = length h
     ∧ (∀ j, j < mid ∨ m1 ≤ j → j ≠ l → h1 !! j = h !! j)
     ∧ (∀ c', visit_tree (normalize call) c = Ok c' →
          ∃ o1 v1, h1 !! l = Some o1 ∧ okind o1 = okind o
            ∧ slots o1 = <[i := v1]> (slots o)
            ∧ Rep h1 mid m1 v1 c' ∧ (c' = c → h1 = h)).
Proof.
  intros IH Hl Hclash Hi HR Hm1 Hf.
  pose proof (Rep_le _ _ _ _ _ HR) as Hle.
  pose proof (lookup_lt_Some _ _ _ Hl) as Hlt.
  assert (Hown : call_hasOwnProperty call o i = Ok true).
  { rewrite call_hasOwnProperty_clash, Hclash. unfold hasOwnProperty.
    apply lookup_lt_Some in Hi. by rewrite bool_decide_eq_true_2. }
  assert (Hwrite : ∀ d, ∃ h1,
    <[l := set_slot i (Date d) o]> h = h1
    ∧ length h1 = length h
    ∧ (∀ j, j < mid ∨ m1 ≤ j → j ≠ l → h1 !! j = h !! j)
    ∧ ∃ o1 v1, h1 !! l = Some o1 ∧ okind o1 = okind o
            ∧ slots o1 = <[i := v1]> (slots o)
            ∧ Rep h1 mid m1 v1 (VDate d)).
  { intros d. eexists; split; [done|]. split; [by rewrite length_insert|].
    split; [intros j _ ?; by rewrite list_lookup_insert_ne|].
    exists (set_slot i (Date d) o), (Date d).
    rewrite list_lookup_insert_eq, okind_set_slot, slots_set_slot by done.
    repeat split. by apply Rep_imm. }
  assert (Hkeep : ∀ c', Rep h mid m1 v c' →
            ∃ o1 v1, h !! l = Some o1 ∧ okind o1 = okind o
            ∧ slots o1 = <[i := v1]> (slots o)
            ∧ Rep h mid m1 v1 c' ∧ (c' = c → h = h)).
  { intros c' ?. exists o, v. by rewrite list_insert_id. }
  unfold visit. rewrite Hl, Hown, Hi.
  inversion HR as [lo' hi' v' t' _ Himm|lo' hi' l' o' t' Hl' Ho' Hk HL]; subst.
  - (* an immediate value *)
    destruct v as [| |b|n|s|d|l0]; simplify_eq/=;
      try (exists h; do 3 (split; [done|]); intros ? [= <-]; by apply Hkeep).
    + (* a string *)
      destruct (JSDate.isoDateRegex_test s).
      * destruct (Hwrite (Date_parse s))
          as (h1 & -> & ? & ? & o1 & v1 & ? & ? & ? & ?).
        exists h1. repeat split; [done..|]. intros ? [= <-]. by exists o1, v1.
      * exists h; do 3 (split; [done|]); intros ? [= <-]; by apply Hkeep.
    + (* a date *)
      rewrite (traverse_imm f h (Date d) (VDate d)) by done.
      exists h; do 3 (split; [done|]); intros ? [= <-]; by apply Hkeep.
  - (* an array or an object *)
    rewrite (date_wrapper_tree _ _ _ _ _ HR).
    assert (Hvt : visit_tree (normalize call) c =
                  match tree_wrapper c with
                  | Some d => Ok (VDate (Date_parse d))
                  | None => normalize call c
                  end).
    { by destruct c. }
    rewrite Hvt. destruct (tree_wrapper c) as [d|] eqn:Hw.
    + destruct (Hwrite (Date_parse d))
        as (h1 & -> & ? & ? & o1 & v1 & ? & ? & ? & ?).
      exists h1. repeat split; [done..|]. intros ? [= <-]. exists o1, v1.
      repeat split; [done..|]. intros <-. by destruct Hk.
    + destruct (IH f h mid m1 (Ref l') HR Hf) as (h1 & -> & Hlen & Hfr & Hok).
      exists h1. repeat split; [done|intros j ? _; by apply Hfr|].
      intros c' Hc'. destruct (Hok _ Hc') as [HR' Hsame].
      exists o, (Ref l'). rewrite Hfr by lia. rewrite list_insert_id by done.
      done.
Qed.

Lemma for_in_spec f l cs :
  Forall (traverse_spec call) cs →
  ∀ done vs h mid o,
  h !! l = Some o → clash call (okind o) = false →
  slots o = done ++ vs →
  RepL h mid l vs cs → l - mid ≤ f →
  ∃ h', for_in (visit call (traverse call f) l) (length done) (length vs) h
          = (to_unit (visit_list (visit_tree (normalize call)) cs), h')
     ∧ length h' = length h
     ∧ (∀ j, j < mid ∨ l < j → h' !! j = h !! j)
     ∧ (∀ cs', visit_list (visit_tree (normalize call)) cs = Ok cs' →
          ∃ o' vs', h' !! l = Some o' ∧ okind o' = okind o
            ∧ slots o' = done ++ vs'
            ∧ RepL h' mid l vs' cs' ∧ (cs' = cs → h' = h)).
Proof.
  induction 1 as [|c cs Hc _ IH]; intros done vs h mid o Hl Hclash Hslots HL Hf.
  - inversion HL; subst. exists h. do 3 (split; [done|]).
    intros ? [= <-]. by exists o, [].
  - inversion HL as [|? m1 ? v ? vs1 ? Hv Hvs]; subst.
    pose proof (Rep_le _ _ _ _ _ Hv) as Hle1.
    pose proof (RepL_le _ _ _ _ _ Hvs) as Hle2.
    assert (Hi : slots o !! length done = Some v).
    { rewrite Hslots. apply list_lookup_middle. done. }
    destruct (visit_spec f l (length done) o h mid m1 v c Hc Hl Hclash Hi Hv)
      as (h1 & Hvisit & Hlen1 & Hfr1 & Hok1); [lia..|].
    simpl. rewrite Hvisit.
    destruct (visit_tree (normalize call) c) as [c'|e] eqn:Hvt; simpl.
    2:{ exists h1. split; [done|]. split; [done|]. split; [|done].
        intros j ?. apply Hfr1; lia. }
    destruct (Hok1 _ eq_refl) as (o1 & v1 & Hl1 & Hk1 & Hs1 & HR1 & Hsame1).
    rewrite Hslots, insert_middle in Hs1.
    destruct (IH (done ++ [v1]) vs1 h1 m1 o1)
      as (h' & Hloop & Hlen & Hfr & Hok).
    { done. }
    { by rewrite Hk1. }
    { by rewrite <-app_assoc. }
    { eapply RepL_frame; [done|]. intros j ?. apply Hfr1; lia. }
    { lia. }
    rewrite length_app in Hloop. simpl in Hloop.
    replace (length done + 1) with (S (length done)) in Hloop by lia.
    exists h'. rewrite Hloop. split.
    { by destruct (visit_list _ cs). }
    split; [congruence|]. split.
    { intros j ?. rewrite Hfr by lia. apply Hfr1; lia. }
    intros cs' Hcs'. destruct (visit_list _ cs) as [cs1'|] eqn:Hvl; [|done].
    injection Hcs' as <-.
    destruct (Hok _ eq_refl) as (o' & vs' & Hl' & Hk' & Hs' & HL' & Hsame).
    exists o', (v1 :: vs'). split; [done|]. split; [congruence|].
    split; [by rewrite Hs', <-app_assoc|]. split.
    + eapply RepL_cons; [|done].
      eapply Rep_frame; [done|]. intros j ?. apply Hfr. lia.
    + intros [= -> ->]. rewrite Hsame by done. by apply Hsame1.
Qed.

(** The in-place traversal of a structure that shares nothing computes
    the tree reading, within the cells of the structure. *)
Theorem traverse_Rep t : traverse_spec call t.
Proof.
  induction t as [t Hleaf|t k Hk IH] using value_children_ind;
    intros fuel h lo hi v HR Hfuel.
  - pose proof (Rep_leaf _ _ _ _ _ HR Hleaf) as Himm.
    rewrite (traverse_imm _ _ _ _ Himm), normalize_leaf by done.
    exists h. do 3 (split; [done|]). by intros ? [= <-].
  - inversion HR as [???? _ Himm|? ? l o ? Hl Ho Hko HL]; subst.
    { apply imm_tkind in Himm. congruence. }
    pose proof (RepL_le _ _ _ _ _ HL) as Hle.
    destruct fuel as [|f]; [lia|]. simpl. rewrite Ho.
    rewrite (normalize_node call t k Hk).
    assert (k = okind o) as -> by congruence.
    destruct (clash call (okind o)) eqn:Hclash.
    + (* the call on the receiver raises at the first key *)
      exists h. split; [|by split].
      destruct (slots o) as [|v vs] eqn:Hs.
      { exfalso. pose proof (okind_length o) as Hlen.
        unfold clash in Hclash. destruct call, (okind o) as [|keys]; try done.
        rewrite Hs in Hlen. destruct keys; [|done].
        by apply bool_decide_eq_true, elem_of_nil in Hclash. }
      simpl. unfold visit. by rewrite Ho, call_hasOwnProperty_clash, Hclash.
    + destruct (for_in_spec f l (kids t) IH [] (slots o) h lo o)
        as (h' & Hloop & Hlen & Hfr & Hok); [done..|lia|].
      exists h'. simpl in Hloop. rewrite Hloop. split.
      { by destruct (visit_list _ _). }
      split; [done|]. split; [intros j ?; apply Hfr; lia|].
      intros t' Ht'. destruct (visit_list _ _) as [cs'|] eqn:Hvl; [|done].
      injection Ht' as <-.
      destruct (Hok _ eq_refl) as (o' & vs' & Hl' & Hk' & Hs' & HL' & Hsame).
      simpl in Hs'. subst vs'.
      destruct (tkind_node (okind o) cs') as [Hkn Hkids].
      { pose proof (okind_length o') as Hlen'. rewrite Hk' in Hlen'.
        destruct (okind o); [done|].
        by rewrite Hlen', (RepL_length _ _ _ _ _ HL'). }
      split.
      * eapply Rep_node; [done|done|by rewrite Hkn, Hk'|by rewrite Hkids].
      * intros Heq. apply Hsame. by rewrite <-Hkids, Heq.
Qed.

End Refinement.

Section AllocFacts.
Local Open Scope nat_scope.

Lemma alloc_node t k h :
  tkind t = Some k →
  alloc t h =
    let '(vs, h') := alloc_list (kids t) h in
    (Ref (length h'),
     h' ++ [match k with KArr => Arr vs | KObj keys => Obj (zip keys vs) end]).
Proof.
  destruct t as [| | | | | |cs|kvs]; try done; intros [= <-]; simpl.
  - set (go := fix go (ts : list value) (h : heap) :=
                 match ts with [] => _ | _ => _ end).
    assert (Hgo : ∀ h, go cs h = alloc_list cs h).
    { induction cs as [|c cs IH]; intros h0; simpl; [done|].
      destruct (alloc c h0). by rewrite IH. }
    by rewrite Hgo.
  - set (go := fix go (kvs : list (string * value)) (h : heap) :=
                 match kvs with [] => _ | _ => _ end).
    assert (Hgo : ∀ h, go kvs h =
              let '(vs, h') := alloc_list kvs.*2 h in (zip kvs.*1 vs, h')).
    { induction kvs as [|[key c] kvs IH]; intros h0; simpl; [done|].
      destruct (alloc c h0). rewrite IH. by destruct (alloc_list _ _). }
    rewrite Hgo. by destruct (alloc_list _ _).
Qed.

Lemma alloc_leaf t h :
  tkind t = None → ∃ v, alloc t h = (v, h) ∧ imm v = Some t.
Proof. destruct t; try done; intros _; eexists; split; done. Qed.

Lemma alloc_list_spec cs :
  Forall alloc_spec cs →
  ∀ h vs h', alloc_list cs h = (vs, h') →
  ∃ ext, h' = h ++ ext ∧ RepL h' (length h) (length h') vs cs
         ∧ length vs = length cs.
Proof.
  induction 1 as [|c cs Hc _ IH]; intros h vs h' Ha; simpl in Ha.
  - injection Ha as <- <-. exists []. rewrite app_nil_r.
    split; [done|]. split; [by apply RepL_nil|done].
  - destruct (alloc c h) as [v h1] eqn:Hv.
    destruct (alloc_list cs h1) as [vs1 h2] eqn:Hvs.
    injection Ha as <- <-.
    destruct (Hc _ _ _ Hv) as (e1 & -> & HR).
    destruct (IH _ _ _ Hvs) as (e2 & -> & HL & Hlen).
    exists (e1 ++ e2). rewrite app_assoc. split; [done|].
    split; [|simpl; congruence].
    eapply RepL_cons; [|done].
    eapply Rep_frame; [done|]. intros j ?. by rewrite lookup_app_l by lia.
Qed.

(** A parsed tree is laid out in new cells, after those of the heap. *)
Theorem alloc_Rep t : alloc_spec t.
Proof.
  induction t as [t Hleaf|t k Hk IH] using value_children_ind; intros h v h' Ha.
  - destruct (alloc_leaf t h Hleaf) as (v' & Ha' & Himm).
    rewrite Ha' in Ha. injection Ha as <- <-.
    exists []. rewrite app_nil_r. split; [done|]. by apply Rep_imm.
  - rewrite (alloc_node _ _ _ Hk) in Ha.
    destruct (alloc_list (kids t) h) as [vs h1] eqn:Hvs.
    injection Ha as <- <-.
    destruct (alloc_list_spec _ IH _ _ _ Hvs) as (e & -> & HL & Hlen).
    eexists. rewrite <-app_assoc. split; [done|].
    rewrite app_assoc.
    set (o := match k with KArr => Arr vs | KObj keys => Obj (zip keys vs) end).
    assert (Hkeys : match k with
                    | KArr => True
                    | KObj keys => length keys = length (kids t)
                    end).
    { destruct t; try done; injection Hk as <-; simpl; [done|].
      by rewrite !length_fmap. }
    assert (Ho : okind o = k ∧ slots o = vs).
    { subst o. destruct k as [|keys]; simpl; [done|].
      rewrite fst_zip, snd_zip by lia. done. }
    destruct Ho as [Hok Hos].
    eapply (Rep_node _ _ _ (length (h ++ e)) o).
    + rewrite !length_app. simpl. lia.
    + by rewrite list_lookup_middle.
    + by rewrite Hok.
    + rewrite Hos. eapply RepL_frame; [done|].
      intros j ?. by rewrite lookup_app_l by lia.
Qed.

(** Reading back. *)
Lemma mapM_props fuel h
    (kvs : list (string * val)) (tkvs : list (string * value)) :
  kvs.*1 = tkvs.*1 →
  mapM (reify fuel h) kvs.*2 = Some tkvs.*2 →
  mapM (λ kv, pair kv.1 <$> reify fuel h kv.2) kvs = Some tkvs.
Proof.
  revert tkvs.
  induction kvs as [|[k v] kvs IH]; intros [|[k' t] tkvs]; try done.
  simpl. intros [= -> Hk] Hm.
  destruct (reify fuel h v) as [t'|]; [|done]. simpl in *.
  destruct (mapM (reify fuel h) _) as [ts|] eqn:Hts in Hm; [|done].
  simpl in Hm. injection Hm as -> ->.
  by rewrite (IH tkvs Hk Hts).
Qed.

Lemma Rep_RepL_reify h :
  (∀ lo hi v t, Rep h lo hi v t →
     ∀ fuel, hi - lo ≤ fuel → reify fuel h v = Some t) ∧
  (∀ lo hi vs ts, RepL h lo hi vs ts →
     ∀ fuel, hi - lo ≤ fuel → mapM (reify fuel h) vs = Some ts).
Proof.
  apply Rep_RepL_ind.
  - intros lo hi v t _ Himm fuel _. destruct v, fuel; by simplify_eq/=.
  - intros lo hi l o t Hl Ho Hk HL IH fuel Hfuel.
    pose proof (RepL_le _ _ _ _ _ HL).
    destruct fuel as [|f]; [lia|]. simpl. rewrite Ho.
    specialize (IH f ltac:(lia)).
    destruct o as [vs|kvs], t as [| | | | | |cs|tkvs]; try done; simpl in *.
    + by rewrite IH.
    + injection Hk as Hk. by rewrite (mapM_props _ _ _ tkvs).
  - done.
  - intros lo mid hi v t vs ts Hv IHv Hvs IHvs fuel Hfuel.
    pose proof (Rep_le _ _ _ _ _ Hv). pose proof (RepL_le _ _ _ _ _ Hvs).
    simpl. rewrite IHv, IHvs by lia. done.
Qed.

Theorem Rep_read h lo hi v t :
  Rep h lo hi v t → hi ≤ length h → read h v = Some t.
Proof. intros HR ?. eapply Rep_RepL_reify; [done|lia]. Qed.

End AllocFacts.

Section TreeFacts.
Context `{Runtime}.
Variable call : hasOwn_call.
Local Open Scope nat_scope.

Abbreviation visit1 := (visit_tree (normalize call)).

Lemma visit_list_Forall2 (f : value → result value) cs cs' :
  visit_list f cs = Ok cs' ↔ Forall2 (λ c c', f c = Ok c') cs cs'.
Proof.
  revert cs'. induction cs as [|c cs IH]; intros cs'; simpl.
  - split; [intros [= <-]; constructor|by inversion 1].
  - destruct (f c) as [c1|e] eqn:Hc.
    + destruct (visit_list f cs) as [cs1|e] eqn:Hcs.
      * split.
        -- intros [= <-]. constructor; [done|]. by apply IH.
        -- inversion 1 as [|???? Hc' Hcs']; subst.
           apply IH in Hcs'. congruence.
      * split; [done|]. inversion 1 as [|???? Hc' Hcs']; subst.
        by apply IH in Hcs'.
    + split; [done|]. inversion 1; congruence.
Qed.

Lemma tkind_keys t keys :
  tkind t = Some (KObj keys) → length keys = length (kids t).
Proof. destruct t; try done. intros [= <-]. simpl. by rewrite !length_fmap. Qed.

Lemma tkind_length t k :
  tkind t = Some k →
  match k with KArr => True | KObj keys => length keys = length (kids t) end.
Proof. destruct k; [done|]. apply tkind_keys. Qed.

(** The shape of a normalised array or object. *)
Lemma normalize_node_Ok t k t' :
  tkind t = Some k → normalize call t = Ok t' →
  clash call k = false ∧
  ∃ cs', Forall2 (λ c c', visit1 c = Ok c') (kids t) cs'
         ∧ t' = node k cs' ∧ tkind t' = Some k ∧ kids t' = cs'.
Proof.
  intros Hk. rewrite (normalize_node call t k Hk).
  destruct (clash call k); [done|].
  destruct (visit_list _ _) as [cs'|] eqn:Hvl; [|done]. intros [= <-].
  split; [done|].
  apply visit_list_Forall2 in Hvl. exists cs'. split; [done|]. split; [done|].
  apply tkind_node. pose proof (tkind_length t k Hk) as Hlen.
  destruct k; [done|]. by rewrite Hlen, (Forall2_length _ _ _ Hvl).
Qed.

Lemma visit_tree_node c k :
  tkind c = Some k →
  visit1 c = match tree_wrapper c with
             | Some d => Ok (VDate (Date_parse d))
             | None => normalize call c
             end.
Proof. by destruct c. Qed.

Lemma visit_tree_str x d : visit1 x = Ok (VStr d) → x = VStr d.
Proof.
  destruct (tkind x) as [k|] eqn:Hk.
  - rewrite (visit_tree_node x k Hk). destruct (tree_wrapper x); [done|].
    intros Hn.
    destruct (normalize_node_Ok _ _ _ Hk Hn) as (_ & cs' & _ & Heq & _).
    by destruct k.
  - destruct x as [| | | |s| | |]; try done; simpl.
    destruct (JSDate.isoDateRegex_test _); [done|]. by intros [= <-].
Qed.

Lemma assoc_zip_Forall2 {A B} (R : A → B → Prop) key
    (kvs : list (string * A)) (cs' : list B) :
  Forall2 R kvs.*2 cs' →
  match assoc key kvs, assoc key (zip kvs.*1 cs') with
  | Some c, Some c' => R c c'
  | None, None => True
  | _, _ => False
  end.
Proof.
  revert cs'. induction kvs as [|[k c] kvs IH]; intros cs'; simpl.
  - by inversion 1.
  - inversion 1 as [|???? Hc Hcs]; subst. simpl.
    destruct (String.eqb key k); [done|]. by apply IH.
Qed.

Lemma wrapper_preserved c c' :
  tree_wrapper c = None → normalize call c = Ok c' → tree_wrapper c' = None.
Proof.
  destruct (tkind c) as [k|] eqn:Hk.
  2:{ rewrite normalize_leaf by done. by intros ? [= <-]. }
  intros Hw Hn.
  destruct (normalize_node_Ok _ _ _ Hk Hn) as (_ & cs' & HF & -> & _).
  destruct c as [| | | | | |cs|kvs]; try done; injection Hk as <-; [done|].
  simpl in *.
  pose proof (assoc_zip_Forall2 _ "$date" kvs cs' HF) as Ha.
  destruct (assoc _ kvs) as [x|], (assoc _ (zip _ _)) as [x'|]; try done.
  destruct x' as [| | | |d| | |]; try done.
  apply visit_tree_str in Ha as ->. done.
Qed.

Lemma visit_tree_idem c c' :
  (∀ x, normalize call c = Ok x → normalize call x = Ok x) →
  visit1 c = Ok c' → visit1 c' = Ok c'.
Proof.
  intros IH. destruct (tkind c) as [k|] eqn:Hk.
  - rewrite (visit_tree_node c k Hk).
    destruct (tree_wrapper c) eqn:Hw; [by intros [= <-]|].
    intros Hn.
    destruct (normalize_node_Ok _ _ _ Hk Hn) as (_ & _ & _ & _ & Hk' & _).
    rewrite (visit_tree_node c' k Hk'), (wrapper_preserved c c') by done.
    by apply IH.
  - destruct c; try done; simpl; try (by intros [= <-]).
    destruct (JSDate.isoDateRegex_test s) eqn:Hs; intros [= <-]; simpl; [done|].
    by rewrite Hs.
Qed.

(** Normalising a normalised tree gives it back. *)
Theorem normalize_idem t t' :
  normalize call t = Ok t' → normalize call t' = Ok t'.
Proof.
  revert t'.
  induction t as [t Hleaf|t k Hk IH] using value_children_ind; intros t' Hn.
  - rewrite normalize_leaf in Hn by done. injection Hn as <-.
    by apply normalize_leaf.
  - destruct (normalize_node_Ok _ _ _ Hk Hn)
      as (Hclash & cs' & HF & -> & Hk' & Hkids).
    rewrite (normalize_node call _ k Hk'), Hclash, Hkids.
    assert (Hvl : visit_list visit1 cs' = Ok cs'); [|by rewrite Hvl].
    apply visit_list_Forall2.
    clear Hn Hk' Hkids Hk.
    induction HF as [|c c' cs cs' Hc _ IHF]; [constructor|].
    inversion IH; subst. constructor; [|by apply IHF].
    by apply (visit_tree_idem c).
Qed.

(** The copy of queryGenerator.js raises on no tree. *)
Lemma visit_list_total (f : value → result value) cs :
  Forall (λ c, ∃ c', f c = Ok c') cs → ∃ cs', visit_list f cs = Ok cs'.
Proof.
  induction 1 as [|c cs [c' Hc] _ [cs' IH]]; simpl; [by eexists|].
  rewrite Hc, IH. by eexists.
Qed.

Theorem normalize_total t :
  call = OnPrototype → ∃ t', normalize call t = Ok t'.
Proof.
  intros Hcall.
  induction t as [t Hleaf|t k Hk IH] using value_children_ind.
  - rewrite normalize_leaf by done. by eexists.
  - rewrite (normalize_node call t k Hk).
    replace (clash call k) with false by (by rewrite Hcall).
    destruct (visit_list_total visit1 (kids t)) as [cs' ->]; [|by eexists].
    eapply Forall_impl; [exact IH|]. intros c [c' Hc]. simpl.
    destruct (tkind c) as [kc|] eqn:Hkc.
    + rewrite (visit_tree_node c kc Hkc). destruct (tree_wrapper c); by eexists.
    + destruct c; try done; simpl; try by eexists.
      destruct (JSDate.isoDateRegex_test _); by eexists.
Qed.

(** What the traversal leaves at a key it gets to. *)
Theorem normalize_at p : ∀ t t' c,
  normalize call t = Ok t' → reached p t = true → subtree p t = Some c →
  ∃ c', visit1 c = Ok c' ∧ subtree p t' = Some c'.
Proof.
  induction p as [|i p IH]; intros t t' c Hn Hr Hs; [done|].
  simpl in Hr, Hs. destruct (kids t !! i) as [c0|] eqn:Hi; [|done].
  destruct (tkind t) as [k|] eqn:Hk; [|by destruct t].
  destruct (normalize_node_Ok _ _ _ Hk Hn) as (_ & cs' & HF & _ & _ & Hkids).
  destruct (Forall2_lookup_l _ _ _ _ _ HF Hi) as (c1 & Hi' & Hc1).
  simpl. rewrite Hkids, Hi'.
  destruct p as [|j p].
  - simpl in *. injection Hs as <-. by exists c1.
  - destruct (tree_wrapper c0) eqn:Hw; [done|].
    destruct (tkind c0) as [k0|] eqn:Hk0.
    2:{ simpl in Hr. by destruct c0. }
    rewrite (visit_tree_node c0 k0 Hk0), Hw in Hc1.
    by apply (IH c0).
Qed.

End TreeFacts.
Section Packaging.
Context `{Runtime}.
Local Open Scope nat_scope.

Lemma agree_prefix (h e h2 : heap) :
  length h2 = length (h ++ e) →
  (∀ j, j < length h → h2 !! j = (h ++ e) !! j) →
  h `prefix_of` h2.
Proof.
  intros Hlen Hag. exists (drop (length h) h2).
  rewrite <-(take_drop (length h) h2) at 1. f_equal.
  apply list_eq. intros j. destruct (decide (j < length h)) as [Hj|Hj].
  - rewrite lookup_take_lt by done. rewrite Hag by done.
    by rewrite lookup_app_l.
  - rewrite lookup_take_ge by lia. symmetry. apply lookup_ge_None. lia.
Qed.

Lemma convertDateStrings_Rep call h lo hi v t :
  Rep h lo hi v t → hi ≤ length h →
  ∃ h', convertDateStrings_with call h v
          = (match normalize call t with
             | Ok _ => Ok v
             | Throw e => Throw e
             end, h')
     ∧ length h' = length h
     ∧ (∀ j, j < lo ∨ hi ≤ j → h' !! j = h !! j)
     ∧ (∀ t', normalize call t = Ok t' →
          Rep h' lo hi v t' ∧ (t' = t → h' = h)).
Proof.
  intros HR Hhi.
  destruct (traverse_Rep call t (length h) h lo hi v HR)
    as (h' & Htr & Hrest); [lia|].
  exists h'. unfold convertDateStrings_with. rewrite Htr.
  split; [by destruct (normalize call t)|done].
Qed.

(** Normalising a freshly parsed tree. *)
Lemma parse_convert call t h v h1 :
  alloc t h = (v, h1) →
  ∃ h2, convertDateStrings_with call h1 v
          = (match normalize call t with
             | Ok _ => Ok v
             | Throw e => Throw e
             end, h2)
     ∧ h `prefix_of` h2
     ∧ (∀ t', normalize call t = Ok t' →
          Rep h2 (length h) (length h2) v t' ∧ read h2 v = Some t').
Proof.
  intros Ha. destruct (alloc_Rep t h v h1 Ha) as (e & -> & HR).
  destruct (convertDateStrings_Rep call _ _ _ _ _ HR)
    as (h2 & Hc & Hlen & Hfr & Hok); [done|].
  exists h2. split; [done|]. split.
  - eapply agree_prefix; [done|]. intros j ?. apply Hfr. lia.
  - intros t' Ht'. destruct (Hok _ Ht') as [HR' _]. rewrite Hlen.
    split; [done|]. eapply Rep_read; [done|lia].
Qed.

End Packaging.

Section Normalizer.
Context `{Runtime}.

Lemma Date_parse_S14 : Date_parse S14 = Some march_14_2025.
Proof. reflexivity. Qed.

Lemma convert_Ok call t h v h1 r h2 :
  alloc t h = (v, h1) →
  convertDateStrings_with call h1 v = (Ok r, h2) →
  r = v ∧ h `prefix_of` h2 ∧
  ∃ t', normalize call t = Ok t' ∧ read h2 v = Some t'
        ∧ Rep h2 (length h) (length h2) v t'.
Proof.
  intros Ha Hc.
  destruct (parse_convert call t h v h1 Ha) as (h2' & Hc' & Hpre & Hok).
  rewrite Hc in Hc'. destruct (normalize call t) as [t'|] eqn:Hn; [|done].
  injection Hc' as -> ->. split; [done|]. split; [done|].
  exists t'. split; [done|]. destruct (Hok _ eq_refl). done.
Qed.

(** The value at a key that the traversal gets to. *)
Lemma convert_at call t p w h v h1 r h2 :
  alloc t h = (v, h1) →
  reached p t = true → subtree p t = Some w →
  convertDateStrings_with call h1 v = (Ok r, h2) →
  ∃ t' c', read h2 v = Some t'
    ∧ visit_tree (normalize call) w = Ok c' ∧ subtree p t' = Some c'.
Proof.
  intros Ha Hr Hs Hc.
  destruct (convert_Ok _ _ _ _ _ _ _ Ha Hc) as (_ & _ & t' & Hn & Hread & _).
  destruct (normalize_at call p t t' w Hn Hr Hs) as (c' & Hv & Hs').
  by exists t', c'.
Qed.

(** C1, as amended: a string "2025-03-14T00:00:00.000Z", or an object
    {"$date": "2025-03-14T00:00:00.000Z"}, at a key that the traversal
    gets to is replaced by the native date of March 14, 2025, midnight
    UTC, whenever [convertDateStrings] (either copy) returns. *)
Theorem date_equivalence call t p w h v h1 r h2 :
  alloc t h = (v, h1) →
  reached p t = true →
  subtree p t = Some w →
  w = VStr S14 ∨ w = VObj [("$date"%string, VStr S14)] →
  convertDateStrings_with call h1 v = (Ok r, h2) →
  ∃ t', read h2 v = Some t'
        ∧ subtree p t' = Some (VDate (Some march_14_2025)).
Proof.
  intros Ha Hr Hs Hw Hc.
  destruct (convert_at _ _ _ _ _ _ _ _ _ Ha Hr Hs Hc)
    as (t' & c' & Hread & Hv & Hs').
  exists t'. split; [done|]. rewrite Hs'. f_equal.
  destruct Hw as [-> | ->]; cbn in Hv; by injection Hv as <-.
Qed.

(** C5: normalising a normalised structure changes nothing; the second
    call returns the same object and writes to no cell. *)
Theorem normalize_idempotent t h v h1 r h2 :
  alloc t h = (v, h1) →
  MongoService.convertDateStrings h1 v = (Ok r, h2) →
  MongoService.convertDateStrings h2 r = (Ok r, h2).
Proof.
  intros Ha Hc.
  destruct (convert_Ok _ _ _ _ _ _ _ Ha Hc) as (-> & Hpre & t' & Hn & _ & HR).
  destruct (convertDateStrings_Rep OnReceiver _ _ _ _ _ HR)
    as (h3 & Hc3 & _ & _ & Hok); [done|].
  pose proof (normalize_idem OnReceiver t t' Hn) as Hn'.
  unfold MongoService.convertDateStrings. rewrite Hc3, Hn'.
  destruct (Hok _ Hn') as [_ ->]; done.
Qed.

(** The copy of queryGenerator.js never raises on a parsed structure. *)
Theorem queryGenerator_convertDateStrings_total t h v h1 :
  alloc t h = (v, h1) →
  ∃ h2, QueryGenerator.convertDateStrings h1 v = (Ok v, h2).
Proof.
  intros Ha. destruct (parse_convert OnPrototype t h v h1 Ha) as (h2 & Hc & _).
  destruct (normalize_total OnPrototype t eq_refl) as [t' Hn].
  rewrite Hn in Hc. by exists h2.
Qed.

(** The copy of mongoService.js raises on every object that has an own
    property named hasOwnProperty. *)
Theorem mongoService_convertDateStrings_raises kvs h v h1 :
  is_Some (assoc "hasOwnProperty" kvs) →
  alloc (VObj kvs) h = (v, h1) →
  ∃ h2, MongoService.convertDateStrings h1 v = (Throw not_a_function, h2).
Proof.
  intros Hk Ha.
  destruct (parse_convert OnReceiver _ h v h1 Ha) as (h2 & Hc & _).
  exists h2. unfold MongoService.convertDateStrings. rewrite Hc. simpl.
  by rewrite bool_decide_eq_true_2.
Qed.

(** C10, as amended: an object with a string [$date] that is not empty,
    at a key that the traversal gets to, is replaced as a whole by the
    date parsed from that string, whatever the string and the other keys. *)
Theorem date_wrapper_replaced call t p kvs d h v h1 r h2 :
  alloc t h = (v, h1) →
  reached p t = true →
  subtree p t = Some (VObj kvs) →
  assoc "$date" kvs = Some (VStr d) → d ≠ EmptyString →
  convertDateStrings_with call h1 v = (Ok r, h2) →
  ∃ t', read h2 v = Some t'
        ∧ subtree p t' = Some (VDate (Date_parse d)).
Proof.
  intros Ha Hr Hs Hd Hne Hc.
  destruct (convert_at _ _ _ _ _ _ _ _ _ Ha Hr Hs Hc)
    as (t' & c' & Hread & Hv & Hs').
  exists t'. split; [done|]. rewrite Hs'. f_equal.
  simpl in Hv. rewrite Hd in Hv.
  destruct (String.eqb_spec d EmptyString) as [->|_]; [done|].
  by injection Hv as <-.
Qed.

End Normalizer.

(** C1, as stated, fails: the key [dateValue] makes no wrapper, the object
    stays and only its field becomes the date; and a string inside an
    object that is a [$date] wrapper goes away with the wrapper, here for
    an invalid date. *)
Lemma dateValue_object_not_replaced :
  (let t := VArr [VObj [("dateValue"%string, VStr S14)]] in
   let '(v, h1) := alloc t [] in
   let '(r, h2) := @MongoService.convertDateStrings stub_runtime h1 v in
   r = Ok v
   ∧ read h2 v
     = Some (VArr [VObj [("dateValue"%string, VDate (Some march_14_2025))]])
   ∧ (read h2 v ≫= subtree [0%nat]) ≠ Some (VDate (Some march_14_2025)))
  ∧ (let t := VArr [VObj [("$date"%string, VStr "soon");
                          ("until"%string, VStr S14)]] in
     let '(v, h1) := alloc t [] in
     let '(r, h2) := @MongoService.convertDateStrings stub_runtime h1 v in
     subtree [0%nat; 1%nat] t = Some (VStr S14)
     ∧ r = Ok v
     ∧ read h2 v = Some (VArr [VDate None])).
Proof.
  vm_compute. split; [split; [done|]; split; [done|]; discriminate|done].
Qed.

(** C6 fails on the code.  On [{"$match": {"hasOwnProperty": 1}}] the
    copy of mongoService.js raises a [TypeError], where the copy of
    queryGenerator.js returns. *)
Theorem mongoService_normalizer_not_total :
  let '(v, h1) := alloc shadowing_query [] in
  fst (@MongoService.convertDateStrings stub_runtime h1 v)
    = Throw not_a_function
  ∧ fst (@QueryGenerator.convertDateStrings stub_runtime h1 v) = Ok v.
Proof. vm_compute. done. Qed.

(** C10, as stated, fails: an object whose [$date] is the empty string is
    left as it is; so is the root, which no key holds; and an object
    inside a wrapper goes away with the wrapper instead of becoming the
    date of its own string. *)
Lemma empty_date_wrapper_not_replaced :
  (let t := VObj [("a"%string, VObj [("$date"%string, VStr EmptyString)])] in
   let '(v, h1) := alloc t [] in
   let '(r, h2) := @MongoService.convertDateStrings stub_runtime h1 v in
   r = Ok v ∧ read h2 v = Some t)
  ∧ (let t := VObj [("$date"%string, VStr "tomorrow")] in
     let '(v, h1) := alloc t [] in
     let '(r, h2) := @MongoService.convertDateStrings stub_runtime h1 v in
     r = Ok v ∧ read h2 v = Some t)
  ∧ (let t := VArr [VObj [("$date"%string, VStr S14);
                          ("next"%string,
                           VObj [("$date"%string, VStr "2025-03-15")])]] in
     let '(v, h1) := alloc t [] in
     let '(r, h2) := @MongoService.convertDateStrings stub_runtime h1 v in
     r = Ok v ∧ read h2 v = Some (VArr [VDate (Some march_14_2025)])).
Proof. vm_compute. done. Qed.

Section Executor.
Context `{Runtime} `{Collaborators}.
Local Open Scope nat_scope.

Lemma store_attempts_app tr1 tr2 :
  store_attempts (tr1 ++ tr2) = store_attempts tr1 + store_attempts tr2.
Proof. unfold store_attempts. by rewrite filter_app, length_app. Qed.

Lemma repair_calls_app tr1 tr2 :
  repair_calls (tr1 ++ tr2) = repair_calls tr1 + repair_calls tr2.
Proof. unfold repair_calls. by rewrite filter_app, length_app. Qed.

Lemma deep_copy_spec h v r h' :
  MongoService.deep_copy h v = (r, h') →
  (∃ e, r = Throw e ∧ h' = h)
  ∨ (∃ j copy, JSON_stringify h v = Ok (Some j) ∧ r = Ok copy
               ∧ alloc j h = (copy, h')).
Proof.
  unfold MongoService.deep_copy.
  destruct (JSON_stringify h v) as [[j|]|e]; [|intros [= <- <-]; left; eauto..].
  destruct (alloc j h) as [copy h1] eqn:Ha. intros [= <- <-].
  right. by exists j, copy.
Qed.

(** One attempt: it either raises before the store is called, or calls the
    store on the normalised deep copy; in both cases every cell that
    existed before is left as it was. *)
Lemma attempt_spec c w r w' :
  MongoService.attempt c w = (r, w') →
  cells w `prefix_of` cells w'
  ∧ ((∃ e, r = Throw e) ∧ trace w' = trace w
     ∨ ∃ j t' copy h1,
         JSON_stringify (cells w) c = Ok (Some j)
         ∧ MongoService.deep_copy (cells w) c = (Ok copy, h1)
         ∧ normalize OnReceiver j = Ok t'
         ∧ Rep (cells w') (length (cells w)) (length (cells w')) copy t'
         ∧ trace w' = trace w ++ [Aggregate (Some t')]
         ∧ r = aggregate (trace w) (Some t')).
Proof.
  unfold MongoService.attempt.
  destruct (MongoService.deep_copy (cells w) c) as [rc h1] eqn:Hd.
  destruct (deep_copy_spec _ _ _ _ Hd)
    as [(e & -> & ->)|(j & copy & Hj & -> & Ha)].
  { intros [= <- <-]. split; [done|]. left. eauto. }
  destruct (parse_convert OnReceiver j _ _ _ Ha) as (h2 & Hc & Hpre & Hok).
  unfold MongoService.convertDateStrings. rewrite Hc.
  destruct (normalize OnReceiver j) as [t'|e] eqn:Hn.
  - destruct (Hok _ eq_refl) as [HR Hread]. rewrite Hread.
    intros [= <- <-]. split; [done|]. right.
    exists j, t', copy, h1. done.
  - intros [= <- <-]. split; [done|]. left. eauto.
Qed.

Lemma attempt_reaches_store c w j t' :
  JSON_stringify (cells w) c = Ok (Some j) →
  normalize OnReceiver j = Ok t' →
  ∃ w', MongoService.attempt c w = (aggregate (trace w) (Some t'), w')
        ∧ trace w' = trace w ++ [Aggregate (Some t')].
Proof.
  intros Hj Hn. unfold MongoService.attempt, MongoService.deep_copy.
  rewrite Hj. destruct (alloc j (cells w)) as [copy h1] eqn:Ha.
  destruct (parse_convert OnReceiver j _ _ _ Ha) as (h2 & Hc & _ & Hok).
  unfold MongoService.convertDateStrings. rewrite Hc, Hn.
  destruct (Hok _ Hn) as [_ ->]. eexists. split; done.
Qed.

(** A repair call: it leaves every cell as it was, and calls no store. *)
Lemma fixQuery_spec oq em fq w r w' :
  QueryGenerator.fixQuery oq em fq w = (r, w') →
  cells w `prefix_of` cells w'
  ∧ ∃ evs, trace w' = trace w ++ FixQuery oq em :: evs
           ∧ store_attempts evs = 0 ∧ repair_calls evs = 0.
Proof.
  unfold QueryGenerator.fixQuery.
  set (w0 := log (FixQuery oq em) w).
  assert (Htry : ∀ r1 w1,
    QueryGenerator.fixQuery_try oq em fq w0 = (r1, w1) →
    cells w `prefix_of` cells w1
    ∧ ∃ evs, trace w1 = trace w ++ FixQuery oq em :: evs
             ∧ store_attempts evs = 0 ∧ repair_calls evs = 0).
  { intros r1 w1. unfold QueryGenerator.fixQuery_try.
    destruct (JSON_stringify (cells w0) fq) as [failed|e].
    2:{ intros [= <- <-]. split; [done|]. by exists []. }
    set (p := FixPrompt em oq failed).
    assert (Hlog : ∀ h, cells w `prefix_of` h →
      cells w `prefix_of` cells (set_cells h (log (Create p) w0))
      ∧ ∃ evs, trace (set_cells h (log (Create p) w0))
                 = trace w ++ FixQuery oq em :: evs
               ∧ store_attempts evs = 0 ∧ repair_calls evs = 0).
    { intros h Hh. split; [done|]. exists [Create p]. simpl.
      by rewrite <-app_assoc. }
    assert (Hlog0 : cells w `prefix_of` cells (log (Create p) w0)
      ∧ ∃ evs, trace (log (Create p) w0) = trace w ++ FixQuery oq em :: evs
               ∧ store_attempts evs = 0 ∧ repair_calls evs = 0).
    { apply (Hlog (cells w)). done. }
    destruct (create (trace w0) p) as [[fixed|]|e]; [|by intros [= <- <-]..].
    destruct (String.eqb fixed EmptyString); [by intros [= <- <-]|].
    destruct (JSON_parse _) as [t|e]; [|by intros [= <- <-]].
    destruct (alloc t (cells (log (Create p) w0))) as [parsed h1] eqn:Ha.
    destruct (parse_convert OnPrototype t _ _ _ Ha) as (h2 & Hc & Hpre & _).
    unfold QueryGenerator.convertDateStrings. rewrite Hc.
    destruct (normalize OnPrototype t); intros [= <- <-]; by apply Hlog. }
  destruct (QueryGenerator.fixQuery_try oq em fq w0) as [[v|e] w1] eqn:Ht;
    intros [= <- <-]; by eapply Htry.
Qed.

(** A whole run leaves every cell that existed before as it was. *)
Lemma retry_loop_frame n maxRetries a oq : ∀ c w r w',
  MongoService.retry_loop n maxRetries a oq c w = (r, w') →
  cells w `prefix_of` cells w'.
Proof.
  revert a. induction n as [|n IH]; intros a c w r w'; simpl.
  { by intros [= <- <-]. }
  destruct (MongoService.attempt c w) as [[results|e] w1] eqn:Hat;
    destruct (attempt_spec _ _ _ _ Hat) as [Hpre1 _].
  { by intros [= <- <-]. }
  destruct (Z.eqb a (maxRetries - 1)); [by intros [= <- <-]|].
  destruct (QueryGenerator.fixQuery oq e c w1) as [[fixed|fe] w2] eqn:Hfix;
    destruct (fixQuery_spec _ _ _ _ _ _ Hfix) as [Hpre2 _].
  - intros Hloop. apply IH in Hloop. by repeat (etrans; [done|]).
  - intros [= <- <-]. by etrans.
Qed.

End Executor.

Section ExecutorClaims.
Context `{Runtime} `{Collaborators}.

Lemma retry_loop_S n maxRetries a oq c w :
  MongoService.retry_loop (S n) maxRetries a oq c w =
    match MongoService.attempt c w with
    | (Ok results, w1) => (Ok (Some results), w1)
    | (Throw message, w1) =>
        if a =? maxRetries - 1 then
          (Throw ("Database query failed after " +:+ pretty maxRetries
                  +:+ " attempts: " +:+ message), w1)
        else
          match QueryGenerator.fixQuery oq message c w1 with
          | (Ok fixed, w2) =>
              MongoService.retry_loop n maxRetries (a + 1) oq fixed w2
          | (Throw fixMessage, w2) =>
              (Throw ("Query could not be fixed: " +:+ fixMessage), w2)
          end
    end.
Proof. reflexivity. Qed.

(** C8: an attempt works on a deep copy.  When the store is called, it is
    called on the tree obtained by normalising what
    [JSON.parse(JSON.stringify(currentQuery))] yields; that copy is made of
    new cells only, and every cell that existed before the attempt (the
    caller's query, a repaired query) is left as it was, also when the
    attempt raises. *)
Theorem attempt_works_on_a_copy currentQuery w r w' :
  MongoService.attempt currentQuery w = (r, w') →
  cells w `prefix_of` cells w'
  ∧ (store_attempts (trace w') = store_attempts (trace w)
     ∨ ∃ j t' copy h1,
         JSON_stringify (cells w) currentQuery = Ok (Some j)
         ∧ MongoService.deep_copy (cells w) currentQuery = (Ok copy, h1)
         ∧ normalize OnReceiver j = Ok t'
         ∧ Rep (cells w') (length (cells w)) (length (cells w')) copy t'
         ∧ trace w' = trace w ++ [Aggregate (Some t')]
         ∧ r = aggregate (trace w) (Some t')).
Proof.
  intros Hat. destruct (attempt_spec _ _ _ _ Hat) as [Hpre Hcases].
  split; [done|]. destruct Hcases as [[_ ->]|Hstore]; [by left|by right].
Qed.

(** C3: when the first attempt fails and the repair call raises, the run
    ends there with the error of the repair; the store has been called at
    most once, the translator once. *)
Theorem repair_failure_short_circuits mongoQuery originalQuery maxRetries
    w e w1 fixError w2 :
  2 ≤ default 2 maxRetries →
  MongoService.attempt mongoQuery w = (Throw e, w1) →
  QueryGenerator.fixQuery originalQuery e mongoQuery w1
    = (Throw fixError, w2) →
  MongoService.executeQueryWithRetry mongoQuery originalQuery maxRetries w
    = (Throw ("Query could not be fixed: " +:+ fixError), w2)
  ∧ ∃ evs, trace w2 = trace w ++ evs
           ∧ (store_attempts evs ≤ 1)%nat ∧ repair_calls evs = 1%nat.
Proof.
  intros Hmax Hat Hfix. unfold MongoService.executeQueryWithRetry.
  destruct (Z.to_nat (default 2 maxRetries)) as [|n] eqn:Hn; [lia|].
  rewrite retry_loop_S, Hat.
  destruct (Z.eqb_spec 0 (default 2 maxRetries - 1)) as [?|_]; [lia|].
  rewrite Hfix. split; [done|].
  destruct (attempt_spec _ _ _ _ Hat) as [_ Hcases].
  destruct (fixQuery_spec _ _ _ _ _ _ Hfix) as (_ & evs & Htr & Hs & Hr).
  destruct Hcases as [[_ Htr1]|(j & t' & copy & h1 & _ & _ & _ & _ & Htr1 & _)];
    rewrite Htr1 in Htr.
  - exists (FixQuery originalQuery e :: evs). split; [done|].
    change (FixQuery originalQuery e :: evs)
      with ([FixQuery originalQuery e] ++ evs).
    rewrite store_attempts_app, repair_calls_app, Hs, Hr.
    split; [vm_compute; lia|by vm_compute].
  - exists (Aggregate (Some t') :: FixQuery originalQuery e :: evs).
    split; [by rewrite <-app_assoc in Htr|].
    change (Aggregate (Some t') :: FixQuery originalQuery e :: evs)
      with ([Aggregate (Some t'); FixQuery originalQuery e] ++ evs).
    rewrite store_attempts_app, repair_calls_app, Hs, Hr.
    split; [vm_compute; lia|by vm_compute].
Qed.

(** C9: with [maxRetries] at most 0 the loop body never runs: nothing is
    called, nothing is raised, and the function returns [undefined]. *)
Theorem nonpositive_maxRetries_returns_undefined mongoQuery originalQuery
    maxRetries w :
  maxRetries ≤ 0 →
  MongoService.executeQueryWithRetry mongoQuery originalQuery
    (Some maxRetries) w = (Ok None, w).
Proof.
  intros Hmax. unfold MongoService.executeQueryWithRetry. simpl.
  by replace (Z.to_nat maxRetries) with 0%nat by lia.
Qed.

(** The retry bound, when the normaliser raises on neither query: a store
    that always fails is called twice, the translator once, and the error
    names the two attempts and the last error of the store. *)
Theorem retry_bound_when_normalizer_returns
    (store_error : list event → option value → string)
    mongoQuery originalQuery w j1 t1 fixed j2 t2 w2 :
  (∀ tr p, aggregate tr p = Throw (store_error tr p)) →
  JSON_stringify (cells w) mongoQuery = Ok (Some j1) →
  normalize OnReceiver j1 = Ok t1 →
  QueryGenerator.fixQuery originalQuery (store_error (trace w) (Some t1))
    mongoQuery (MongoService.attempt mongoQuery w).2 = (Ok fixed, w2) →
  JSON_stringify (cells w2) fixed = Ok (Some j2) →
  normalize OnReceiver j2 = Ok t2 →
  ∃ w3 evs,
    MongoService.executeQueryWithRetry mongoQuery originalQuery (Some 2) w
      = (Throw ("Database query failed after 2 attempts: "
                +:+ store_error (trace w2) (Some t2)), w3)
    ∧ trace w3 = trace w ++ evs
    ∧ store_attempts evs = 2%nat ∧ repair_calls evs = 1%nat.
Proof.
  intros Hstore Hj1 Hn1 Hfix Hj2 Hn2.
  destruct (attempt_reaches_store _ _ _ _ Hj1 Hn1) as (w1 & Hat1 & Htr1).
  rewrite Hstore in Hat1. rewrite Hat1 in Hfix. cbn [snd] in Hfix.
  destruct (fixQuery_spec _ _ _ _ _ _ Hfix) as (_ & evs & Htr2 & Hs & Hr).
  destruct (attempt_reaches_store _ _ _ _ Hj2 Hn2) as (w3 & Hat2 & Htr3).
  rewrite Hstore in Hat2.
  exists w3, ([Aggregate (Some t1);
               FixQuery originalQuery (store_error (trace w) (Some t1))]
              ++ evs ++ [Aggregate (Some t2)]).
  unfold MongoService.executeQueryWithRetry.
  change (Z.to_nat (default 2 (Some 2))) with 2%nat.
  rewrite retry_loop_S, Hat1. change (0 =? default 2 (Some 2) - 1) with false.
  cbv iota. rewrite Hfix, retry_loop_S, Hat2.
  split; [done|]. split.
  - rewrite Htr3, Htr2, Htr1. by rewrite <-!app_assoc.
  - rewrite !store_attempts_app, !repair_calls_app, Hs, Hr. by vm_compute.
Qed.

(** A whole run leaves every cell that existed before it as it was: the
    caller's query is the same after [executeQueryWithRetry]. *)
Theorem executeQueryWithRetry_leaves_cells mongoQuery originalQuery
    maxRetries w r w' :
  MongoService.executeQueryWithRetry mongoQuery originalQuery maxRetries w
    = (r, w') →
  cells w `prefix_of` cells w'.
Proof. apply retry_loop_frame. Qed.

End ExecutorClaims.

(** C2 fails on the code.  The query [{"$match": {"hasOwnProperty": 1}}],
    a store that always fails, a translator whose repair succeeds with []:
    the first attempt raises in the normaliser and never gets to the
    store, which is called once, not twice, before the run ends with the
    error of the two attempts. *)
Theorem retry_bound_broken_by_normalizer :
  let '(q, h) := alloc shadowing_query [] in
  let '(r, w') :=
    @MongoService.executeQueryWithRetry stub_runtime (stub_collaborators "[]")
      q "top instructors" (Some 2) {| cells := h; trace := [] |} in
  r = Throw "Database query failed after 2 attempts: store is down"
  ∧ store_attempts (trace w') = 1%nat
  ∧ repair_calls (trace w') = 1%nat
  ∧ trace w' =
      [FixQuery "top instructors" not_a_function;
       Create (FixPrompt not_a_function "top instructors"
                 (Some shadowing_query));
       Aggregate (Some (VArr []))].
Proof. vm_compute. done. Qed.

(** C4 fails on the code.  When the reasoning service answers {},
    [fixQuery] returns that object as the repaired query, where
    [generateQuery] rejects the same answer for not being an array. *)
Theorem fixQuery_returns_a_non_array :
  let '(r, w') :=
    @QueryGenerator.fixQuery stub_runtime (stub_collaborators "{}")
      "top instructors" "store is down" (Ref 1) stored_query in
  r = Ok (Ref 2)
  ∧ cells w' !! 2%nat = Some (Obj [])
  ∧ isArray (cells w') (Ref 2) = false
  ∧ fst (@QueryGenerator.generateQuery stub_runtime (stub_collaborators "{}")
           true "top instructors" stored_query)
    = Throw "Failed to generate MongoDB query: Query must be an array".
Proof. vm_compute. done. Qed.

(** C7: more than 200 records are cut to the first 50; 200 or fewer are
    passed in full and in order. *)
Theorem rawResults_truncation (results : list value) :
  ((200 < length results)%nat →
     Server.rawResults results = take 50 results
     ∧ length (Server.rawResults results) = 50%nat)
  ∧ ((length results ≤ 200)%nat → Server.rawResults results = results).
Proof.
  unfold Server.rawResults. split; intros Hlen.
  - destruct (Nat.leb_spec (length results) 200) as [?|_]; [lia|].
    split; [done|]. rewrite length_take. lia.
  - by destruct (Nat.leb_spec (length results) 200) as [_|?]; [|lia].
Qed.

Lemma rawResults_truncation_witness :
  Server.rawResults (replicate 201 VNull) = replicate 50 VNull
  ∧ Server.rawResults (replicate 200 VNull) = replicate 200 VNull
  ∧ Server.rawResults (replicate 150 VNull) = replicate 150 VNull.
Proof.
  split; [|split].
  - apply (proj1 (rawResults_truncation (replicate 201 VNull))).
    rewrite length_replicate. lia.
  - apply (proj2 (rawResults_truncation (replicate 200 VNull))).
    rewrite length_replicate. lia.
  - apply (proj2 (rawResults_truncation (replicate 150 VNull))).
    rewrite length_replicate. lia.
Defined.

(** The fences of a fenced answer are removed. *)
Example strip_fences_json :
  QueryGenerator.strip_fences
    ("```json" +:+ JSString.nl +:+ "[{}]" +:+ JSString.nl +:+ "```")
    = "[{}]"%string
  ∧ QueryGenerator.strip_fences ("```" +:+ JSString.nl +:+ "[]```")
    = "[]"%string
  ∧ QueryGenerator.strip_fences "[]" = "[]"%string.
Proof. vm_compute. done. Qed.

Section Translator.
Context `{Runtime} `{Collaborators}.

(** An answer that does not parse makes [fixQuery] raise. *)
Lemma fixQuery_unparsable oq em fq w failed fixed e :
  JSON_stringify (cells w) fq = Ok failed →
  create (trace w ++ [FixQuery oq em]) (FixPrompt em oq failed)
    = Ok (Some fixed) →
  fixed ≠ EmptyString →
  JSON_parse (QueryGenerator.strip_fences fixed) = Throw e →
  ∃ w', QueryGenerator.fixQuery oq em fq w
        = (Throw ("Failed to fix query: " +:+ e), w').
Proof.
  intros Hs Hc Hne Hp.
  unfold QueryGenerator.fixQuery, QueryGenerator.fixQuery_try.
  cbn [cells trace log]. rewrite Hs, Hc.
  destruct (String.eqb_spec fixed EmptyString) as [?|_]; [done|].
  rewrite Hp. by eexists.
Qed.

(** An answer that parses is normalised and returned, array or not. *)
Lemma fixQuery_returns_what_parses oq em fq w failed fixed t :
  JSON_stringify (cells w) fq = Ok failed →
  create (trace w ++ [FixQuery oq em]) (FixPrompt em oq failed)
    = Ok (Some fixed) →
  fixed ≠ EmptyString →
  JSON_parse (QueryGenerator.strip_fences fixed) = Ok t →
  ∃ v w' t', QueryGenerator.fixQuery oq em fq w = (Ok v, w')
    ∧ normalize OnPrototype t = Ok t'
    ∧ read (cells w') v = Some t'
    ∧ tkind t' = tkind t.
Proof.
  intros Hs Hc Hne Hp.
  unfold QueryGenerator.fixQuery, QueryGenerator.fixQuery_try.
  cbn [cells trace log]. rewrite Hs, Hc.
  destruct (String.eqb_spec fixed EmptyString) as [?|_]; [done|]. rewrite Hp.
  destruct (alloc t (cells w)) as [parsed h1] eqn:Ha.
  destruct (parse_convert OnPrototype t _ _ _ Ha) as (h2 & Hcv & _ & Hok).
  destruct (normalize_total OnPrototype t eq_refl) as [t' Hn].
  unfold QueryGenerator.convertDateStrings. rewrite Hcv, Hn.
  destruct (Hok _ Hn) as [_ Hread].
  eexists _, _, t'. split; [done|]. split; [done|]. split; [done|].
  destruct (tkind t) as [k|] eqn:Hk.
  - by destruct (normalize_node_Ok _ _ _ _ Hk Hn) as (_ & _ & _ & _ & ? & _).
  - rewrite normalize_leaf in Hn by done. by injection Hn as <-.
Qed.

(** [generateQuery] returns arrays only. *)
Lemma generateQuery_returns_arrays init userQuery w v w' :
  QueryGenerator.generateQuery init userQuery w = (Ok v, w') →
  isArray (cells w') v = true.
Proof.
  unfold QueryGenerator.generateQuery, QueryGenerator.generateQuery_try.
  destruct init; [|done]. cbn [negb].
  destruct (create _ _) as [[cleaned|]|e]; [|done..].
  destruct (String.eqb cleaned EmptyString); [done|].
  destruct (JSON_parse _) as [t|e]; [|done].
  destruct (alloc t _) as [parsed h1] eqn:Ha.
  destruct (isArray h1 parsed) eqn:Harr; [|done]. cbn [negb].
  destruct (alloc_Rep t _ _ _ Ha) as (ext & -> & HR).
  destruct (convertDateStrings_Rep OnPrototype _ _ _ _ _ HR)
    as (h2 & Hc & Hlen & _ & Hok); [done|].
  unfold QueryGenerator.convertDateStrings. rewrite Hc.
  destruct (normalize OnPrototype t) as [t'|e] eqn:Hn; [|done].
  intros [= <- <-]. destruct (Hok _ eq_refl) as [HR' _].
  cbn [cells set_cells].
  destruct parsed as [| | | | | |l]; try done.
  inversion HR' as [|? ? ? o ? ? Hl Hk _]; subst; [done|].
  inversion HR as [|? ? ? o0 ? ? Hl0 Hk0 _]; subst; [done|].
  unfold isArray in *. rewrite Hl0 in Harr. rewrite Hl.
  destruct o0; [|done].
  destruct (normalize_node_Ok _ _ _ _ Hk0 Hn) as (_ & _ & _ & _ & Hk' & _).
  rewrite Hk' in Hk. by destruct o.
Qed.

End Translator.

(** ** The theorems at concrete inputs *)

Lemma date_equivalence_witness :
  ∃ v h1 h2 t',
    alloc sessions_in_march [] = (v, h1)
    ∧ @MongoService.convertDateStrings stub_runtime h1 v = (Ok v, h2)
    ∧ read h2 v = Some t'
    ∧ subtree [0; 0; 0; 0]%nat t' = Some (VDate (Some march_14_2025)).
Proof.
  pose (a := alloc sessions_in_march []).
  pose (c := @MongoService.convertDateStrings stub_runtime a.2 a.1).
  assert (Ha : alloc sessions_in_march [] = (a.1, a.2)) by reflexivity.
  assert (Hc : @convertDateStrings_with stub_runtime OnReceiver a.2 a.1
               = (Ok a.1, c.2)) by (vm_compute; reflexivity).
  destruct (@date_equivalence stub_runtime OnReceiver sessions_in_march
              [0; 0; 0; 0]%nat (VStr S14) [] a.1 a.2 a.1 c.2
              Ha eq_refl eq_refl (or_introl eq_refl) Hc) as (t' & Hread & Hsub).
  by exists a.1, a.2, c.2, t'.
Defined.

Lemma normalize_idempotent_witness :
  ∃ v h1 h2,
    alloc sessions_in_march [] = (v, h1)
    ∧ @MongoService.convertDateStrings stub_runtime h1 v = (Ok v, h2)
    ∧ @MongoService.convertDateStrings stub_runtime h2 v = (Ok v, h2).
Proof.
  pose (a := alloc sessions_in_march []).
  pose (c := @MongoService.convertDateStrings stub_runtime a.2 a.1).
  assert (Ha : alloc sessions_in_march [] = (a.1, a.2)) by reflexivity.
  assert (Hc : @MongoService.convertDateStrings stub_runtime a.2 a.1
               = (Ok a.1, c.2)) by (vm_compute; reflexivity).
  exists a.1, a.2, c.2. split; [done|]. split; [done|].
  exact (@normalize_idempotent stub_runtime sessions_in_march
           [] a.1 a.2 a.1 c.2 Ha Hc).
Defined.

Lemma date_wrapper_replaced_witness :
  ∃ v h1 h2 t',
    alloc labelled_wrapper [] = (v, h1)
    ∧ @MongoService.convertDateStrings stub_runtime h1 v = (Ok v, h2)
    ∧ read h2 v = Some t'
    ∧ subtree [0%nat] t'
      = Some (VDate (@Date_parse stub_runtime "tomorrow")).
Proof.
  pose (a := alloc labelled_wrapper []).
  pose (c := @MongoService.convertDateStrings stub_runtime a.2 a.1).
  assert (Ha : alloc labelled_wrapper [] = (a.1, a.2)) by reflexivity.
  assert (Hc : @convertDateStrings_with stub_runtime OnReceiver a.2 a.1
               = (Ok a.1, c.2)) by (vm_compute; reflexivity).
  destruct (@date_wrapper_replaced stub_runtime OnReceiver labelled_wrapper
              [0%nat] _ "tomorrow" [] a.1 a.2 a.1 c.2
              Ha eq_refl eq_refl eq_refl ltac:(discriminate) Hc)
    as (t' & Hread & Hsub).
  by exists a.1, a.2, c.2, t'.
Defined.

Lemma attempt_works_on_a_copy_witness :
  ∃ r w',
    @MongoService.attempt stub_runtime (stub_collaborators "[]")
      (Ref 1) stored_query = (r, w')
    ∧ cells stored_query `prefix_of` cells w'.
Proof.
  pose (a := @MongoService.attempt stub_runtime (stub_collaborators "[]")
               (Ref 1) stored_query).
  assert (Ha : @MongoService.attempt stub_runtime (stub_collaborators "[]")
                 (Ref 1) stored_query = (a.1, a.2))
    by (vm_compute; reflexivity).
  exists a.1, a.2. split; [done|].
  exact (proj1 (@attempt_works_on_a_copy stub_runtime
                  (stub_collaborators "[]") (Ref 1) stored_query a.1 a.2 Ha)).
Defined.

Lemma repair_failure_short_circuits_witness :
  ∃ w2,
    @MongoService.executeQueryWithRetry stub_runtime
      (stub_collaborators "no JSON") Null "top instructors" (Some 3)
      empty_world
    = (Throw ("Query could not be fixed: Failed to fix query: "
              +:+ "Unexpected end of JSON input"), w2)
    ∧ store_attempts (trace w2) = 1%nat.
Proof.
  eexists. split.
  - eapply (@repair_failure_short_circuits stub_runtime
              (stub_collaborators "no JSON") Null "top instructors" (Some 3)
              empty_world "store is down");
      [simpl; lia|vm_compute; reflexivity|vm_compute; reflexivity].
  - vm_compute. reflexivity.
Defined.

Lemma nonpositive_maxRetries_witness :
  @MongoService.executeQueryWithRetry stub_runtime (stub_collaborators "[]")
    Null "top instructors" (Some 0) empty_world
  = (Ok None, empty_world).
Proof.
  apply (@nonpositive_maxRetries_returns_undefined stub_runtime
           (stub_collaborators "[]")).
  lia.
Defined.

Lemma retry_bound_witness :
  ∃ w3 evs,
    @MongoService.executeQueryWithRetry stub_runtime (stub_collaborators "[]")
      Null "top instructors" (Some 2) empty_world
    = (Throw "Database query failed after 2 attempts: store is down", w3)
    ∧ trace w3 = evs
    ∧ store_attempts evs = 2%nat ∧ repair_calls evs = 1%nat.
Proof.
  eapply (@retry_bound_when_normalizer_returns stub_runtime
            (stub_collaborators "[]") (λ _ _, "store is down"%string)
            Null "top instructors" empty_world).
  - reflexivity.
  - vm_compute. reflexivity.
  - reflexivity.
  - vm_compute. reflexivity.
  - vm_compute. reflexivity.
  - reflexivity.
Defined.
